(** * html_simple: the attribute policy engine, the escaper and the serializer

    A shallow embedding of package [html_simple] (the library file with
    [New], [setAttribute], [AddString] and [generateHtml]) together with the
    properties its specification states about it.  Of the two revisions of
    the library file the embedding follows the later one, in which an
    attribute holds a list of fragments.

    Go strings are byte sequences: they are modelled by [string], whose
    characters ([ascii]) are the 256 byte values.  Go maps are [gmap]s.
    The standard-library functions the package calls ([html.EscapeString],
    [strings.HasPrefix], [strings.Fields], [strings.Join]) are written out;
    package [net/url] is an interface the development is parametric in. *)

From Stdlib Require Import Ascii String List NArith Lia.
From stdpp Require Import base option list strings gmap fin_maps.

Local Open Scope string_scope.
Local Open Scope list_scope.

(** ** Bytes *)

Definition bytes (s : string) : list ascii := list_ascii_of_string s.

(** The byte 0x22, the double quote. *)
Definition dquote : ascii := Eval cbv in ascii_of_nat 34.

Definition byte_in (c : ascii) (s : string) : bool :=
  existsb (Ascii.eqb c) (bytes s).

(** ** Package html *)

(** [html.EscapeString] runs a byte replacer built from five pairs; a byte
    with no pair is copied. *)
Definition htmlEscaper (c : ascii) : string :=
  if Ascii.eqb c "&" then "&amp;"
  else if Ascii.eqb c "'" then "&#39;"
  else if Ascii.eqb c "<" then "&lt;"
  else if Ascii.eqb c ">" then "&gt;"
  else if Ascii.eqb c dquote then "&#34;"
  else String c "".

Fixpoint html_EscapeString (s : string) : string :=
  match s with
  | "" => ""
  | String c r => htmlEscaper c +:+ html_EscapeString r
  end.

(** ** Package strings *)

Definition strings_HasPrefix (s prefix : string) : bool := String.prefix prefix s.

Fixpoint strings_Join (elems : list string) (sep : string) : string :=
  match elems with
  | [] => ""
  | [x] => x
  | x :: r => x +:+ sep +:+ strings_Join r sep
  end.

(** [asciiSpace]: tab, line feed, vertical tab, form feed, carriage return,
    space. *)
Definition asciiSpace (c : ascii) : bool :=
  let n := N_of_ascii c in
  ((9 <=? n) && (n <=? 13) || (n =? 32))%N.

(** [utf8.DecodeRuneInString]: the rune at the head of [s] and its width in
    bytes.  An invalid or short encoding is the rune 0xFFFD of width one. *)
Definition RuneError : N := 65533.

Definition contb (c : ascii) (lo hi : N) : bool :=
  let n := N_of_ascii c in ((lo <=? n) && (n <=? hi))%N.

Definition low6 (c : ascii) : N := N.land (N_of_ascii c) 63.

Definition DecodeRuneInString (s : string) : N * nat :=
  match s with
  | "" => (RuneError, 0)
  | String s0 r =>
      let n0 := N_of_ascii s0 in
      if (n0 <? 128)%N then (n0, 1)
      else if ((n0 <? 194) || (244 <? n0))%N then (RuneError, 1)
      else
        (* size and the range accepted for the second byte *)
        let '(sz, lo, hi) :=
          if (n0 <? 224)%N then (2%nat, 128%N, 191%N)
          else if (n0 =? 224)%N then (3%nat, 160%N, 191%N)
          else if (n0 =? 237)%N then (3%nat, 128%N, 159%N)
          else if (n0 <? 240)%N then (3%nat, 128%N, 191%N)
          else if (n0 =? 240)%N then (4%nat, 144%N, 191%N)
          else if (n0 =? 244)%N then (4%nat, 128%N, 143%N)
          else (4%nat, 128%N, 191%N) in
        if (String.length s <? sz)%nat then (RuneError, 1)
        else
          match r with
          | String s1 r1 =>
              if negb (contb s1 lo hi) then (RuneError, 1)
              else if (sz <=? 2)%nat
              then (N.lor (N.shiftl (N.land n0 31) 6) (low6 s1), 2)
              else
                match r1 with
                | String s2 r2 =>
                    if negb (contb s2 128 191) then (RuneError, 1)
                    else if (sz <=? 3)%nat
                    then (N.lor (N.shiftl (N.land n0 15) 12)
                            (N.lor (N.shiftl (low6 s1) 6) (low6 s2)), 3)
                    else
                      match r2 with
                      | String s3 _ =>
                          if negb (contb s3 128 191) then (RuneError, 1)
                          else (N.lor (N.shiftl (N.land n0 7) 18)
                                  (N.lor (N.shiftl (low6 s1) 12)
                                     (N.lor (N.shiftl (low6 s2) 6) (low6 s3))), 4)
                      | "" => (RuneError, 1)
                      end
                | "" => (RuneError, 1)
                end
          | "" => (RuneError, 1)
          end
  end.

(** [unicode.IsSpace]. *)
Definition unicode_IsSpace (r : N) : bool :=
  if (r <=? 255)%N
  then ((9 <=? r) && (r <=? 13) || (r =? 32) || (r =? 133) || (r =? 160))%N
  else ((r =? 5760) || (8192 <=? r) && (r <=? 8202) || (r =? 8232) || (r =? 8233)
        || (r =? 8239) || (r =? 8287) || (r =? 12288))%N.

Fixpoint take_bytes (n : nat) (s : string) : string :=
  match n, s with
  | S k, String c r => String c (take_bytes k r)
  | _, _ => ""
  end.

Fixpoint drop_bytes (n : nat) (s : string) : string :=
  match n, s with
  | S k, String _ r => drop_bytes k r
  | _, _ => s
  end.

(** [for end, rune := range s]: the runes of [s] in order, each as the bytes
    that encode it and whether the rune is a space.  [fuel] bounds the number
    of runes; [String.length s] is enough since a rune has at least one
    byte. *)
Fixpoint range_runes (fuel : nat) (s : string) : list (string * bool) :=
  match fuel, s with
  | S k, String _ _ =>
      let '(r, w) := DecodeRuneInString s in
      (take_bytes w s, unicode_IsSpace r) :: range_runes k (drop_bytes w s)
  | _, _ => []
  end.

(** The spans of [FieldsFunc]: [cur] is the field being read ([start >= 0])
    or [None] ([start < 0]). *)
Fixpoint field_spans (cs : list (string * bool)) (cur : option string) : list string :=
  match cs with
  | [] => match cur with Some w => [w] | None => [] end
  | (_, true) :: r =>
      match cur with
      | Some w => w :: field_spans r None
      | None => field_spans r None
      end
  | (b, false) :: r => field_spans r (Some (default "" cur +:+ b))
  end.

Definition strings_FieldsFunc_IsSpace (s : string) : list string :=
  field_spans (range_runes (String.length s) s) None.

(** [strings.Fields]: the ASCII fast path splits at [asciiSpace] bytes; a
    string with a byte of 0x80 or more goes through [FieldsFunc] with
    [unicode.IsSpace]. *)
Definition strings_Fields (s : string) : list string :=
  if forallb (fun c => (N_of_ascii c <? 128)%N) (bytes s)
  then field_spans (map (fun c => (String c "", asciiSpace c)) (bytes s)) None
  else strings_FieldsFunc_IsSpace s.

(** ** Package net/url

    [url.Parse] and the method [String] of [URL] belong to the Go standard library.  The
    sanitizer reads two fields of the parsed URL and calls [String] on it;
    nothing else of the package is used.  The development takes the two
    functions as an interface: every statement below that mentions
    [net_url] holds whatever the library does. *)

Record URL : Type := mkURL {
  Scheme : string;
  Opaque : string;
  Host : string;
  Path : string;
  OmitHost : bool;
  ForceQuery : bool;
  RawQuery : string;
  Fragment : string
}.

Record NetURL : Type := {
  url_Parse : string -> option URL;   (* [None]: [err != nil] *)
  URL_String : URL -> string
}.

(** ** Package html_simple: data *)

Inductive Tag : Type :=
| NormalTag (s : string)
| VoidTag (s : string).

Definition name (t : Tag) : string :=
  match t with NormalTag s => s | VoidTag s => s end.

Abbreviation Attributes := (gmap string (list string)).

Record KeyValue : Type := KV { Key : string; Value : string }.

Record attributeConfig : Type := {
  allowed : bool;
  sanitizeFunc : option (string -> string)   (* [None]: a nil func *)
}.

Record Attribute : Type := { Name : string }.

(** An element with its subtree.  The fields carry the letter [e] of the
    receiver, since [Tag] and [Attributes] name types as well.  [Parent] is
    a back reference that no function reads; [generator] is the generator
    the whole tree belongs to, passed to [setAttribute] as an argument. *)
#[warnings="-register-all"]
Inductive Element : Type := mkElement {
  eTag : Tag;
  eAttributes : Attributes;
  eChildren : list Element;
  eContent : string
}.

Record Generator : Type := {
  Root : Element;
  allowedAttributes : gmap string attributeConfig
}.

(** ** New *)

Definition defaultAllowed : list string :=
  [ "accept"; "accept-charset"; "accesskey"; "allow"; "alt"; "as"; "async";
    "autocapitalize"; "autocomplete"; "autoplay"; "background"; "bgcolor"; "border";
    "capture"; "charset"; "checked"; "cite"; "class"; "color"; "cols"; "colspan";
    "content"; "contenteditable"; "controls"; "coords"; "crossorigin"; "data"; "data-*";
    "datetime"; "decoding"; "default"; "defer"; "dir"; "dirname"; "disabled"; "download";
    "draggable"; "enctype"; "enterkeyhint"; "for"; "form"; "formenctype";
    "formmethod"; "formnovalidate"; "formtarget"; "headers"; "height"; "hidden"; "high";
    "hreflang"; "http-equiv"; "id"; "integrity"; "inputmode"; "ismap"; "itemprop";
    "kind"; "label"; "lang"; "loading"; "list"; "loop"; "low"; "max"; "maxlength";
    "minlength"; "media"; "method"; "min"; "multiple"; "muted"; "name"; "novalidate";
    "open"; "optimum"; "pattern"; "placeholder"; "playsinline";
    "preload"; "readonly"; "referrerpolicy"; "rel"; "required"; "reversed"; "role";
    "rows"; "rowspan"; "sandbox"; "scope"; "selected"; "shape"; "size"; "sizes";
    "slot"; "span"; "spellcheck"; "srcdoc"; "srclang"; "start"; "step";
    "style"; "tabindex"; "target"; "title"; "translate"; "type"; "usemap"; "value";
    "width"; "wrap" ].

Definition defaultAllowedHtmx : list string :=
  [ "hx-get"; "hx-post"; "hx-put"; "hx-patch"; "hx-delete" ].

Definition defaultAllowedUrl : list string :=
  [ "href"; "src"; "action"; "formaction"; "srcset"; "ping"; "poster" ]
    ++ defaultAllowedHtmx.

(** A slice argument: [None] is the nil slice, [Some l] a slice that is not
    nil ([Some []] is the empty slice [[]Attribute{}]). *)
Definition not_nil {A} (s : option (list A)) : bool :=
  match s with Some _ => true | None => false end.

Definition elems {A} (s : option (list A)) : list A := default [] s.

Definition exists_in (m : gmap string attributeConfig) (attr : string) : bool :=
  bool_decide (is_Some (m !! attr)).

Definition escapeConfig : attributeConfig :=
  {| allowed := true; sanitizeFunc := Some html_EscapeString |}.

Section Policy.

Variable net_url : NetURL.

Definition urlSanitizeFunc (s : string) : string :=
  match url_Parse net_url s with
  | None => "#"
  | Some u =>
      if String.eqb (Scheme u) "javascript" then "#"
      else if String.eqb (Scheme u) "" && negb (strings_HasPrefix (Path u) "/") then "#"
      else html_EscapeString (URL_String net_url u)
  end.

Definition urlConfig : attributeConfig :=
  {| allowed := true; sanitizeFunc := Some urlSanitizeFunc |}.

(** The inner loop [for _, attribute := range allowedAttributesCustom]. *)
Definition registerCustom (m : gmap string attributeConfig) (custom : list Attribute)
  : gmap string attributeConfig :=
  foldl (fun m attribute => <[Name attribute := escapeConfig]> m) m custom.

(** One turn of [for _, attr := range defaultAllowed]. *)
Definition defaultStep (custom : option (list Attribute))
    (m : gmap string attributeConfig) (attr : string) : gmap string attributeConfig :=
  if not_nil custom && exists_in m attr then m (* continue *)
  else <[attr := escapeConfig]> m.

(** One turn of [for _, attr := range defaultAllowedUrl]: the registration
    of the URL sanitizer stands inside the test [allowedAttributesCustom !=
    nil], and the loop over the custom attributes inside the turn. *)
Definition urlStep (custom : option (list Attribute))
    (m : gmap string attributeConfig) (attr : string) : gmap string attributeConfig :=
  if not_nil custom then
    if exists_in m attr then m (* continue *)
    else if not_nil custom && exists_in m attr then m (* continue *)
    else registerCustom (<[attr := urlConfig]> m) (elems custom)
  else registerCustom m (elems custom).

Definition newRoot : Element :=
  {| eTag := NormalTag ""; eAttributes := ∅; eChildren := []; eContent := "" |}.

Definition New (allowedAttributesCustom : option (list Attribute)) : Generator :=
  let m0 : gmap string attributeConfig := ∅ in
  let m1 := foldl (defaultStep allowedAttributesCustom) m0 defaultAllowed in
  let m2 := foldl (urlStep allowedAttributesCustom) m1 defaultAllowedUrl in
  {| Root := newRoot; allowedAttributes := m2 |}.

End Policy.

(** ** Building the tree *)

Definition newElement (tag : Tag) : Element :=
  {| eTag := tag; eAttributes := ∅; eChildren := []; eContent := "" |}.

(** [e.Add(tag)] and [e.AddVoid(tag)] append a new child to [e]; the pointer
    they return is the last child of the result. *)
Definition Add (e : Element) (tag : string) : Element :=
  {| eTag := eTag e; eAttributes := eAttributes e;
     eChildren := eChildren e ++ [newElement (NormalTag tag)];
     eContent := eContent e |}.

Definition AddVoid (e : Element) (tag : string) : Element :=
  {| eTag := eTag e; eAttributes := eAttributes e;
     eChildren := eChildren e ++ [newElement (VoidTag tag)];
     eContent := eContent e |}.

Definition setAttributes (e : Element) (a : Attributes) : Element :=
  {| eTag := eTag e; eAttributes := a; eChildren := eChildren e; eContent := eContent e |}.

(** [e.Attributes[key]]: the nil slice when the key is absent. *)
Definition attr_get (a : Attributes) (key : string) : list string :=
  default [] (a !! key).

Definition setAttribute (g : Generator) (e : Element) (key value : string) : Element :=
  let a := eAttributes e in
  let config := allowedAttributes g !! key in
  if match config with Some c => allowed c | None => false end then
    let sanitizedValue :=
      match config ≫= sanitizeFunc with
      | Some f => f value
      | None => html_EscapeString value
      end in
    if String.eqb key "class" then
      setAttributes e (<[key := attr_get a key ++ strings_Fields sanitizedValue]> a)
    else if String.eqb key "style" then
      setAttributes e (<[key := attr_get a key ++ [sanitizedValue]]> a)
    else
      setAttributes e (<[key := [sanitizedValue]]> a)
  else if strings_HasPrefix key "js-" then
    setAttributes e (<[key := [html_EscapeString value]]> a)
  else if strings_HasPrefix key "data-" then
    setAttributes e (<[key := [html_EscapeString value]]> a)
  else
    setAttributes e (<["data-" +:+ key := [html_EscapeString value]]> a).

Definition Attr (g : Generator) (e : Element) (key value : string) : Element :=
  setAttribute g e key value.

Definition WithAttrs (g : Generator) (e : Element) (attrs : list KeyValue) : Element :=
  foldl (fun e attr => setAttribute g e (Key attr) (Value attr)) e attrs.

Definition AddString (e : Element) (content : string) : Element :=
  {| eTag := eTag e; eAttributes := eAttributes e; eChildren := eChildren e;
     eContent := eContent e +:+ html_EscapeString content |}.

(** ** Serialization *)

Definition dq : string := String dquote "".

(** One turn of [for k, v := range e.Attributes]: both arms of the switch on
    [k] join with a space. *)
Definition writeAttribute (kv : string * list string) : string :=
  " " +:+ kv.1 +:+ "=" +:+ dq
    +:+ (if String.eqb kv.1 "class" then strings_Join kv.2 " " else strings_Join kv.2 " ")
    +:+ dq.

Definition writeAttributes (l : list (string * list string)) : string :=
  foldr (fun kv out => writeAttribute kv +:+ out) "" l.

Section Serializer.

(** Go leaves the order in which [range] walks a map open, and it may differ
    from one walk to the next.  [rangeAttributes path m] is the order of the
    walk over the attribute map [m] of the element at position [path] (the
    child indexes from the root); [range_ok] says a walk visits every entry
    once. *)
Variable rangeAttributes : list nat -> Attributes -> list (string * list string).

Definition range_ok : Prop :=
  ∀ path (m : Attributes), rangeAttributes path m ≡ₚ map_to_list m.

Fixpoint generateHtml (path : list nat) (e : Element) {struct e} : string :=
  match e with
  | mkElement tag attrs children content =>
      let kids :=
        (fix each (i : nat) (cs : list Element) {struct cs} : string :=
           match cs with
           | [] => ""
           | child :: r => generateHtml (path ++ [i]) child +:+ each (S i) r
           end) 0 children in
      if String.eqb (name tag) "" then kids
      else
        let opening := "<" +:+ name tag +:+ writeAttributes (rangeAttributes path attrs) in
        match tag with
        | VoidTag _ => opening +:+ " />"
        | NormalTag _ =>
            opening +:+ ">"
              +:+ (if String.eqb content "" then "" else content)
              +:+ kids
              +:+ "</" +:+ name tag +:+ ">"
        end
  end.

Definition Generate (g : Generator) : string := generateHtml [] (Root g).

End Serializer.

(** The walk in the order of [map_to_list]. *)
Definition rangeMapOrder (_ : list nat) (m : Attributes) : list (string * list string) :=
  map_to_list m.

(** ** Programs over the tree

    A caller holds pointers to elements and calls methods on them.  A
    pointer is the position of its element, the child indexes from the
    root; a call is a position and an operation. *)

Inductive Op : Type :=
| OpAdd (tag : string)
| OpAddVoid (tag : string)
| OpAttr (key value : string)
| OpWithAttrs (attrs : list KeyValue)
| OpAddString (content : string).

Definition perform (g : Generator) (op : Op) (e : Element) : Element :=
  match op with
  | OpAdd tag => Add e tag
  | OpAddVoid tag => AddVoid e tag
  | OpAttr key value => Attr g e key value
  | OpWithAttrs attrs => WithAttrs g e attrs
  | OpAddString content => AddString e content
  end.

(** [applyAt p f e]: the tree [e] with [f] applied to the element at
    position [p]; a position outside the tree addresses nothing. *)
Fixpoint applyAt (p : list nat) (f : Element -> Element) (e : Element) : Element :=
  match p with
  | [] => f e
  | i :: p' =>
      {| eTag := eTag e; eAttributes := eAttributes e;
         eChildren := alter (applyAt p' f) i (eChildren e);
         eContent := eContent e |}
  end.

Definition withRoot (g : Generator) (root : Element) : Generator :=
  {| Root := root; allowedAttributes := allowedAttributes g |}.

Definition call (g : Generator) (c : list nat * Op) : Generator :=
  withRoot g (applyAt c.1 (perform g c.2) (Root g)).

Definition run (g : Generator) (prog : list (list nat * Op)) : Generator :=
  foldl call g prog.

(** ** A library instance

    To run the model on concrete inputs the interface needs an instance.
    [sample_url] follows [net/url] on a sublanguage of URL texts: the scheme
    splitter [getScheme], the control-byte test, the cuts at the fragment
    and query marks, the opaque form [scheme:rest], the test on a colon in
    the first segment of a relative path, and the split of [//host/path].
    Hosts are letters, digits, dots and hyphens; paths and fragments are
    unreserved bytes and slashes, which the library neither decodes nor
    escapes.  A text outside the sublanguage (user info, ports, percent
    escapes, brackets) is answered with an error here.  No theorem about the
    package depends on this instance; it serves the closed examples. *)

Module SampleURL.

Definition isLetter (c : ascii) : bool :=
  let n := N_of_ascii c in
  ((97 <=? n) && (n <=? 122) || (65 <=? n) && (n <=? 90))%N.

Definition isDigit (c : ascii) : bool :=
  let n := N_of_ascii c in ((48 <=? n) && (n <=? 57))%N.

Definition stringContainsCTLByte (s : string) : bool :=
  existsb (fun c => let n := N_of_ascii c in ((n <? 32) || (n =? 127))%N) (bytes s).

(** [getScheme]: [None] is the error [missing protocol scheme]. *)
Fixpoint getScheme_at (i : nat) (rest rawURL : string) : option (string * string) :=
  match rest with
  | "" => Some ("", rawURL)
  | String c r =>
      if isLetter c then getScheme_at (S i) r rawURL
      else if isDigit c || Ascii.eqb c "+" || Ascii.eqb c "-" || Ascii.eqb c "."
      then (if (i =? 0)%nat then Some ("", rawURL) else getScheme_at (S i) r rawURL)
      else if Ascii.eqb c ":"
      then (if (i =? 0)%nat then None else Some (take_bytes i rawURL, r))
      else Some ("", rawURL)
  end.

Definition getScheme (rawURL : string) : option (string * string) :=
  getScheme_at 0 rawURL rawURL.

Definition toLowerByte (c : ascii) : ascii :=
  let n := N_of_ascii c in
  if ((65 <=? n) && (n <=? 90))%N then ascii_of_N (n + 32) else c.

Fixpoint ToLower (s : string) : string :=
  match s with
  | "" => ""
  | String c r => String (toLowerByte c) (ToLower r)
  end.

(** [strings.Cut] at a one-byte separator. *)
Fixpoint Cut (s : string) (sep : ascii) : string * string * bool :=
  match s with
  | "" => ("", "", false)
  | String c r =>
      if Ascii.eqb c sep then ("", r, true)
      else let '(before, after, found) := Cut r sep in (String c before, after, found)
  end.

Definition Count (s : string) (c : ascii) : nat :=
  List.length (filter (fun x => Ascii.eqb x c = true) (bytes s)).

Definition HasSuffix (s : string) (c : ascii) : bool :=
  match rev (bytes s) with
  | x :: _ => Ascii.eqb x c
  | [] => false
  end.

Definition plainHost (c : ascii) : bool :=
  isLetter c || isDigit c || Ascii.eqb c "-" || Ascii.eqb c ".".

Definition plainPath (c : ascii) : bool :=
  isLetter c || isDigit c || Ascii.eqb c "-" || Ascii.eqb c "_" || Ascii.eqb c "."
  || Ascii.eqb c "~" || Ascii.eqb c "/".

Definition parse (rawURL : string) : option URL :=
  let '(u, frag, _) := Cut rawURL "#" in
  if stringContainsCTLByte u then None
  else if negb (forallb plainPath (bytes frag)) then None
  else if String.eqb u "*"
  then Some (mkURL "" "" "" "*" false false "" frag)
  else
    match getScheme u with
    | None => None
    | Some (scheme, rest) =>
        let scheme := ToLower scheme in
        let '(rest, rawQuery, forceQuery) :=
          if HasSuffix rest "?" && (Count rest "?" =? 1)%nat
          then (take_bytes (String.length rest - 1) rest, "", true)
          else let '(r, q, _) := Cut rest "?" in (r, q, false) in
        if negb (strings_HasPrefix rest "/") && negb (String.eqb scheme "")
        then Some (mkURL scheme rest "" "" false forceQuery rawQuery frag)
        else if negb (strings_HasPrefix rest "/")
                && byte_in ":" (let '(segment, _, _) := Cut rest "/" in segment)
        then None
        else
          let '(host, path, omitHost) :=
            if (negb (String.eqb scheme "") || negb (strings_HasPrefix rest "///"))
               && strings_HasPrefix rest "//"
            then
              let authority := drop_bytes 2 rest in
              let '(h, p, found) := Cut authority "/" in
              (h, if found then String "/" p else "", false)
            else (EmptyString, rest,
                  negb (String.eqb scheme "") && strings_HasPrefix rest "/") in
          if forallb plainHost (bytes host) && forallb plainPath (bytes path)
          then Some (mkURL scheme "" host path omitHost forceQuery rawQuery frag)
          else None
    end.

Definition toString (u : URL) : string :=
  let scheme := if String.eqb (Scheme u) "" then "" else Scheme u +:+ ":" in
  let body :=
    if negb (String.eqb (Opaque u) "") then Opaque u
    else
      let authority :=
        if negb (String.eqb (Scheme u) "") || negb (String.eqb (Host u) "")
        then
          if OmitHost u && String.eqb (Host u) "" then ""
          else
            (if negb (String.eqb (Host u) "") || negb (String.eqb (Path u) "")
             then "//" else "") +:+ Host u
        else "" in
      let slash :=
        if negb (String.eqb (Path u) "") && negb (strings_HasPrefix (Path u) "/")
           && negb (String.eqb (Host u) "")
        then "/" else "" in
      authority +:+ slash +:+ Path u in
  let query :=
    if ForceQuery u || negb (String.eqb (RawQuery u) "")
    then "?" +:+ RawQuery u else "" in
  let fragment := if String.eqb (Fragment u) "" then "" else "#" +:+ Fragment u in
  scheme +:+ body +:+ query +:+ fragment.

End SampleURL.

Definition sample_url : NetURL :=
  {| url_Parse := SampleURL.parse; URL_String := SampleURL.toString |}.

(** * What the statements speak of *)

(** ** Bytes and escaped text *)

(** [all_bytes p s]: every byte of [s] passes the test [p]. *)
Definition all_bytes (p : ascii -> bool) (s : string) : bool := forallb p (bytes s).

(** The four bytes that never occur in escaped text. *)
Definition markup_byte (c : ascii) : bool :=
  Ascii.eqb c "<" || Ascii.eqb c ">" || Ascii.eqb c dquote || Ascii.eqb c "'".

Definition special_byte (c : ascii) : bool := Ascii.eqb c "&" || markup_byte c.

Definition no_markup (s : string) : bool := all_bytes (fun c => negb (markup_byte c)) s.

(** The five replacement texts. *)
Definition entities : list string :=
  ["&amp;"; "&#39;"; "&lt;"; "&gt;"; "&#34;"].

(** Every [&] of [s] is the first byte of one of the five entities. *)
Fixpoint amp_begins_entity (s : string) : bool :=
  match s with
  | "" => true
  | String c r =>
      (if Ascii.eqb c "&" then existsb (fun e => String.prefix e s) entities
       else true)
      && amp_begins_entity r
  end.

(** ** The policy table *)

(** The names of a custom list. *)
Definition names (l : list Attribute) : list string := map Name l.

(** Every entry of the table is the escape-only one. *)
Definition all_escape (m : gmap string attributeConfig) : Prop :=
  ∀ k c, m !! k = Some c -> c = escapeConfig.

(** The value the policy entry [c] makes of [value]: its sanitizer, or the
    escaper when the entry has none. *)
Definition sanitized (c : attributeConfig) (value : string) : string :=
  match sanitizeFunc c with
  | Some f => f value
  | None => html_EscapeString value
  end.

(** ** Stored fragments *)

(** No double quote and no [<]. *)
Definition quote_safe (s : string) : bool :=
  all_bytes (fun c => negb (Ascii.eqb c dquote || Ascii.eqb c "<")) s.

Definition attrs_safe (a : Attributes) : Prop :=
  map_Forall (fun _ v => Forall (fun f => quote_safe f = true) v
                         ∧ quote_safe (strings_Join v " ") = true) a.

#[warnings="-register-all"]
Inductive tree_safe : Element -> Prop :=
| tree_safe_node tag attrs children content :
    attrs_safe attrs ->
    Forall tree_safe children ->
    tree_safe (mkElement tag attrs children content).

(** ** The text of one element *)

(** The text of the children, as [generateHtml] writes it. *)
Fixpoint childrenHtml (gen : list nat -> Element -> string)
    (path : list nat) (i : nat) (cs : list Element) : string :=
  match cs with
  | [] => ""
  | child :: r => gen (path ++ [i]) child +:+ childrenHtml gen path (S i) r
  end.

(** What follows the attributes in the text of an element with a name. *)
Definition afterAttributes (ord : list nat -> Attributes -> list (string * list string))
    (path : list nat) (e : Element) : string :=
  match eTag e with
  | VoidTag _ => " />"
  | NormalTag _ =>
      ">" +:+ (if String.eqb (eContent e) "" then "" else eContent e)
        +:+ childrenHtml (generateHtml ord) path 0 (eChildren e)
        +:+ "</" +:+ name (eTag e) +:+ ">"
  end.

(** The text of the class attribute with the fragments [a], [b], [c]. *)
Definition class_abc : string := " class=" +:+ dq +:+ "a b c" +:+ dq.

(** * More of the package *)

(** ** Registration of one attribute

    [_allowAttribute] puts an entry for [name] into the policy table; the
    sanitizer may be nil. *)

Definition _allowAttribute (g : Generator) (name : string)
    (sanitizeFunc : option (string -> string)) : Generator :=
  {| Root := Root g;
     allowedAttributes :=
       <[name := {| allowed := true; sanitizeFunc := sanitizeFunc |}]> (allowedAttributes g) |}.

(** The name under which [setAttribute] stores a value given for [key]. *)
Definition storedName (g : Generator) (key : string) : string :=
  if match allowedAttributes g !! key with Some c => allowed c | None => false end then key
  else if strings_HasPrefix key "js-" then key
  else if strings_HasPrefix key "data-" then key
  else "data-" +:+ key.

(** ** The tag methods

    The generator program writes one method per name of [htmlTags]: the
    body is [e.AddVoid(VoidTag(tag))] when [voidElements[tag]] holds and
    [e.Add(NormalTag(tag))] otherwise. *)

Definition htmlTags : list string :=
  [
    "a"; "abbr"; "acronym"; "address"; "area"; "article"; "aside"; "audio"; "b";
    "base"; "bdi"; "bdo"; "big"; "blockquote"; "body"; "br"; "button"; "canvas";
    "caption"; "center"; "cite"; "code"; "col"; "colgroup"; "data"; "datalist";
    "dd"; "del"; "details"; "dfn"; "dialog"; "dir"; "div"; "dl"; "dt"; "em";
    "embed"; "fencedframe"; "fieldset"; "figcaption"; "figure"; "font"; "footer";
    "form"; "frame"; "frameset"; "h1"; "head"; "header"; "hgroup"; "hr"; "html";
    "i"; "iframe"; "img"; "input"; "ins"; "kbd"; "label"; "legend"; "li"; "link";
    "main"; "map"; "mark"; "marquee"; "math"; "menu"; "meta"; "meter"; "nav";
    "nobr"; "noembed"; "noframes"; "noscript"; "object"; "ol"; "optgroup"; "option";
    "output"; "p"; "param"; "picture"; "plaintext"; "portal"; "pre"; "progress";
    "q"; "rb"; "rp"; "rt"; "rtc"; "ruby"; "s"; "samp"; "script"; "search";
    "section"; "select"; "slot"; "small"; "source"; "span"; "strike"; "strong";
    "style"; "sub"; "summary"; "sup"; "svg"; "table"; "tbody"; "td"; "template";
    "textarea"; "tfoot"; "th"; "thead"; "time"; "title"; "tr"; "track"; "tt"; "u";
    "ul"; "var"; "video"; "wbr"; "xmp" ].

Definition voidElements : gmap string bool :=
  list_to_map
    [ ("area", true); ("base", true); ("br", true); ("col", true); ("embed", true); ("hr", true); ("img", true);
      ("input", true); ("link", true); ("meta", true); ("param", true); ("source", true); ("track", true); ("wbr", true) ].

(** [voidElements[tag]]: [false] for a name with no entry. *)
Definition isVoidElement (tag : string) : bool := default false (voidElements !! tag).

Definition tagMethod (tag : string) (e : Element) : Element :=
  if isVoidElement tag then AddVoid e tag else Add e tag.

(** [strings.Title] on a string of ASCII bytes, as every name of
    [htmlTags] is one: a letter that follows a separator is put in upper
    case, and so is the first byte, the walk starting after a space.  A
    separator is a byte that is no letter, no digit and no underscore. *)
Definition isSeparator (c : ascii) : bool :=
  let n := N_of_ascii c in
  negb ((48 <=? n) && (n <=? 57) || (97 <=? n) && (n <=? 122)
        || (65 <=? n) && (n <=? 90) || (n =? 95))%N.

Definition toTitleByte (c : ascii) : ascii :=
  let n := N_of_ascii c in
  if ((97 <=? n) && (n <=? 122))%N then ascii_of_N (n - 32) else c.

Fixpoint Title_from (prev : ascii) (s : string) : string :=
  match s with
  | "" => ""
  | String c r =>
      String (if isSeparator prev then toTitleByte c else c) (Title_from c r)
  end.

Definition strings_Title (s : string) : string := Title_from " " s.

(** [methodName := strings.Title(tag)] *)
Definition methodName (tag : string) : string := strings_Title tag.

(** The fields of [Element] and the methods the library file declares on
    it. *)
Definition elementMembers : list string :=
  [ "Tag"; "Attributes"; "Children"; "Parent"; "Content"; "generator";
    "Add"; "AddVoid"; "Attr"; "WithAttrs"; "setAttribute"; "AddString";
    "generateHtml" ].

(** ** The earlier revision

    In the earlier revision of the library file an attribute holds one
    string, [New] registers five default names, then the custom names, then
    [href] and [src], and [setAttribute] knows no [js-] prefix and no
    accumulation. *)

Module Rev1.

#[warnings="-register-all"]
Inductive Element : Type := mkElement {
  eTag : Tag;
  eAttributes : gmap string string;
  eChildren : list Element;
  eContent : string
}.

Record Generator : Type := {
  Root : Element;
  allowedAttributes : gmap string attributeConfig
}.

Definition defaultAllowed : list string := [ "class"; "id"; "alt"; "title"; "style" ].

Definition newRoot : Element :=
  {| eTag := NormalTag ""; eAttributes := ∅; eChildren := []; eContent := "" |}.

Definition New (net_url : NetURL) (allowedAttributes : option (list Attribute)) : Generator :=
  let m0 : gmap string attributeConfig := ∅ in
  let m1 := foldl (fun m attr => <[attr := escapeConfig]> m) m0 defaultAllowed in
  let m2 :=
    if not_nil allowedAttributes
    then foldl (fun m attribute => <[Name attribute := escapeConfig]> m) m1
           (elems allowedAttributes)
    else m1 in
  let m3 := <["href" := urlConfig net_url]> m2 in
  let m4 := <["src" := urlConfig net_url]> m3 in
  {| Root := newRoot; allowedAttributes := m4 |}.

Definition allowAttribute (g : Generator) (name : string)
    (sanitizeFunc : option (string -> string)) : Generator :=
  {| Root := Root g;
     allowedAttributes :=
       <[name := {| allowed := true; sanitizeFunc := sanitizeFunc |}]> (allowedAttributes g) |}.

Definition newElement (tag : Tag) : Element :=
  {| eTag := tag; eAttributes := ∅; eChildren := []; eContent := "" |}.

Definition Add (e : Element) (tag : string) : Element :=
  {| eTag := eTag e; eAttributes := eAttributes e;
     eChildren := eChildren e ++ [newElement (NormalTag tag)];
     eContent := eContent e |}.

Definition AddVoid (e : Element) (tag : string) : Element :=
  {| eTag := eTag e; eAttributes := eAttributes e;
     eChildren := eChildren e ++ [newElement (VoidTag tag)];
     eContent := eContent e |}.

Definition setAttributes (e : Element) (a : gmap string string) : Element :=
  {| eTag := eTag e; eAttributes := a; eChildren := eChildren e; eContent := eContent e |}.

Definition setAttribute (g : Generator) (e : Element) (key value : string) : Element :=
  let a := eAttributes e in
  let config := allowedAttributes g !! key in
  if match config with Some c => allowed c | None => false end then
    match config ≫= sanitizeFunc with
    | Some f => setAttributes e (<[key := f value]> a)
    | None => setAttributes e (<[key := html_EscapeString value]> a)
    end
  else if strings_HasPrefix key "data-" then
    setAttributes e (<[key := html_EscapeString value]> a)
  else
    setAttributes e (<["data-" +:+ key := html_EscapeString value]> a).

Definition Attr (g : Generator) (e : Element) (key value : string) : Element :=
  setAttribute g e key value.

Definition WithAttrs (g : Generator) (e : Element) (attrs : list KeyValue) : Element :=
  foldl (fun e attr => setAttribute g e (Key attr) (Value attr)) e attrs.

Definition AddString (e : Element) (content : string) : Element :=
  {| eTag := eTag e; eAttributes := eAttributes e; eChildren := eChildren e;
     eContent := eContent e +:+ html_EscapeString content |}.

Definition writeAttribute (kv : string * string) : string :=
  " " +:+ kv.1 +:+ "=" +:+ dq +:+ kv.2 +:+ dq.

Definition writeAttributes (l : list (string * string)) : string :=
  foldr (fun kv out => writeAttribute kv +:+ out) "" l.

Section Serializer.

Variable rangeAttributes : list nat -> gmap string string -> list (string * string).

Definition range_ok : Prop :=
  ∀ path (m : gmap string string), rangeAttributes path m ≡ₚ map_to_list m.

Fixpoint generateHtml (path : list nat) (e : Element) {struct e} : string :=
  match e with
  | mkElement tag attrs children content =>
      let kids :=
        (fix each (i : nat) (cs : list Element) {struct cs} : string :=
           match cs with
           | [] => ""
           | child :: r => generateHtml (path ++ [i]) child +:+ each (S i) r
           end) 0 children in
      if String.eqb (name tag) "" then kids
      else
        let opening := "<" +:+ name tag +:+ writeAttributes (rangeAttributes path attrs) in
        match tag with
        | VoidTag _ => opening +:+ " />"
        | NormalTag _ =>
            opening +:+ ">"
              +:+ (if String.eqb content "" then "" else content)
              +:+ kids
              +:+ "</" +:+ name tag +:+ ">"
        end
  end.

Definition Generate (g : Generator) : string := generateHtml [] (Root g).

End Serializer.

(** Calls on the tree, as for the later revision. *)
Inductive Op : Type :=
| OpAdd (tag : string)
| OpAddVoid (tag : string)
| OpAttr (key value : string)
| OpWithAttrs (attrs : list KeyValue)
| OpAddString (content : string).

Definition perform (g : Generator) (op : Op) (e : Element) : Element :=
  match op with
  | OpAdd tag => Add e tag
  | OpAddVoid tag => AddVoid e tag
  | OpAttr key value => Attr g e key value
  | OpWithAttrs attrs => WithAttrs g e attrs
  | OpAddString content => AddString e content
  end.

Fixpoint applyAt (p : list nat) (f : Element -> Element) (e : Element) : Element :=
  match p with
  | [] => f e
  | i :: p' =>
      {| eTag := eTag e; eAttributes := eAttributes e;
         eChildren := alter (applyAt p' f) i (eChildren e);
         eContent := eContent e |}
  end.

Definition call (g : Generator) (c : list nat * Op) : Generator :=
  {| Root := applyAt c.1 (perform g c.2) (Root g);
     allowedAttributes := allowedAttributes g |}.

Definition run (g : Generator) (prog : list (list nat * Op)) : Generator :=
  foldl call g prog.

(** No stored value has a double quote or a [<], in any element. *)
#[warnings="-register-all"]
Inductive tree_safe : Element -> Prop :=
| tree_safe_node tag attrs children content :
    map_Forall (fun _ v => quote_safe v = true) attrs ->
    Forall tree_safe children ->
    tree_safe (mkElement tag attrs children content).

End Rev1.

(** ** What the further statements speak of *)

(** Escaped text: none of the four markup bytes, and [&] only at the head
    of an entity. *)
Definition text_safe (s : string) : bool := no_markup s && amp_begins_entity s.

(** [all_elements P e]: [P] holds of the attributes and of the text of
    every element of the tree [e]. *)
#[warnings="-register-all"]
Inductive all_elements (P : Attributes -> string -> Prop) : Element -> Prop :=
| all_elements_node tag attrs children content :
    P attrs content ->
    Forall (all_elements P) children ->
    all_elements P (mkElement tag attrs children content).



(** At most one attribute. *)
Definition few_attrs (a : Attributes) : Prop := size a <= 1.

(** The walk in the order opposite to that of [rangeMapOrder]. *)
Definition rangeReversed (_ : list nat) (m : Attributes) : list (string * list string) :=
  reverse (map_to_list m).

(** The policy table of the earlier revision holds the escaper and the URL
    sanitizer only. *)
Definition table_sanitizes (net_url : NetURL) (m : gmap string attributeConfig) : Prop :=
  map_Forall (fun _ c => c = escapeConfig ∨ c = urlConfig net_url) m.

(** * Properties *)

#[local] Arguments String.append !_ _ / : simpl nomatch.

(** ** Bytes of an appended string *)

Lemma bytes_app (s t : string) : bytes (s +:+ t) = bytes s ++ bytes t.
Proof. induction s as [|c s IH]; simpl; [reflexivity|]. unfold bytes in *; simpl. by rewrite IH. Qed.

Lemma append_assoc (s t u : string) : (s +:+ t) +:+ u = s +:+ (t +:+ u).
Proof. induction s as [|c s IH]; simpl; [reflexivity|]. by rewrite IH. Qed.

Lemma append_nil_r (s : string) : s +:+ "" = s.
Proof. induction s as [|c s IH]; simpl; [reflexivity|]. by rewrite IH. Qed.

Lemma all_bytes_app p s t : all_bytes p (s +:+ t) = all_bytes p s && all_bytes p t.
Proof. unfold all_bytes. by rewrite bytes_app, forallb_app. Qed.

(** ** The escaper *)

Lemma htmlEscaper_no_markup c : no_markup (htmlEscaper c) = true.
Proof. destruct c as [[] [] [] [] [] [] [] []]; reflexivity. Qed.

Lemma htmlEscaper_plain c : special_byte c = false -> htmlEscaper c = String c "".
Proof. destruct c as [[] [] [] [] [] [] [] []]; (reflexivity || discriminate). Qed.

Lemma html_EscapeString_app s t :
  html_EscapeString (s +:+ t) = html_EscapeString s +:+ html_EscapeString t.
Proof.
  induction s as [|c s IH]; [reflexivity|].
  change (html_EscapeString (String c s +:+ t))
    with (htmlEscaper c +:+ html_EscapeString (s +:+ t)).
  rewrite IH. symmetry. apply append_assoc.
Qed.

Lemma html_EscapeString_no_markup s : no_markup (html_EscapeString s) = true.
Proof.
  induction s as [|c s IH]; simpl; [reflexivity|].
  pose proof (htmlEscaper_no_markup c) as Hc.
  unfold no_markup in *. by rewrite all_bytes_app, IH, Hc.
Qed.

Lemma amp_begins_entity_escaper c t :
  amp_begins_entity t = true -> amp_begins_entity (htmlEscaper c +:+ t) = true.
Proof.
  intros Ht.
  destruct c as [[] [] [] [] [] [] [] []]; cbn; rewrite ?Ht; try reflexivity;
    destruct t; reflexivity.
Qed.

Lemma html_EscapeString_amp s : amp_begins_entity (html_EscapeString s) = true.
Proof.
  induction s as [|c s IH]; simpl; [reflexivity|].
  by apply amp_begins_entity_escaper.
Qed.

(** ** Fields *)

(** A test that holds of every byte of [s] holds of every byte of every
    field of [s]: a field is a run of bytes of [s]. *)
Lemma field_spans_all p cs cur :
  Forall (fun chunk => all_bytes p chunk.1 = true) cs ->
  all_bytes p (default "" cur) = true ->
  Forall (fun w => all_bytes p w = true) (field_spans cs cur).
Proof.
  intros Hcs. revert cur.
  induction Hcs as [|[b sp] cs Hb Hcs IH]; intros cur Hcur; simpl.
  - destruct cur; [by constructor|constructor].
  - destruct sp.
    + destruct cur; [constructor; [done|]|]; by apply IH.
    + apply IH. simpl. rewrite all_bytes_app. simpl in Hb. by rewrite Hcur, Hb.
Qed.

Lemma all_bytes_take p n s : all_bytes p s = true -> all_bytes p (take_bytes n s) = true.
Proof.
  revert s; induction n as [|n IH]; intros [|c s]; simpl; try reflexivity.
  unfold all_bytes; simpl. intros [Hc Hs]%andb_prop. rewrite Hc. by apply IH.
Qed.

Lemma all_bytes_drop p n s : all_bytes p s = true -> all_bytes p (drop_bytes n s) = true.
Proof.
  revert s; induction n as [|n IH]; intros [|c s]; simpl; try done.
  unfold all_bytes; simpl. intros [Hc Hs]%andb_prop. by apply IH.
Qed.

Lemma range_runes_all p fuel s :
  all_bytes p s = true ->
  Forall (fun chunk => all_bytes p chunk.1 = true) (range_runes fuel s).
Proof.
  revert s; induction fuel as [|fuel IH]; intros s Hs; [constructor|].
  destruct s as [|c s]; [constructor|].
  cbn [range_runes]. destruct (DecodeRuneInString (String c s)) as [r w].
  constructor; [by apply all_bytes_take|]. by apply IH, all_bytes_drop.
Qed.

Lemma strings_Fields_all p s :
  all_bytes p s = true ->
  Forall (fun w => all_bytes p w = true) (strings_Fields s).
Proof.
  intros Hs. unfold strings_Fields.
  destruct (forallb _ (bytes s)).
  - apply field_spans_all; [|done].
    unfold all_bytes in Hs. apply Forall_map.
    induction (bytes s) as [|c l IH]; [constructor|].
    simpl in Hs. apply andb_prop in Hs as [Hc Hl].
    constructor; [|by apply IH]. unfold all_bytes; simpl. by rewrite Hc.
  - apply field_spans_all; [|done]. by apply range_runes_all.
Qed.

Lemma strings_Join_all p (l : list string) sep :
  all_bytes p sep = true ->
  Forall (fun w => all_bytes p w = true) l ->
  all_bytes p (strings_Join l sep) = true.
Proof.
  intros Hsep Hl. induction Hl as [|x l Hx Hl IH]; [done|].
  destruct l as [|y l]; [done|].
  change (strings_Join (x :: y :: l) sep) with (x +:+ sep +:+ strings_Join (y :: l) sep).
  by rewrite !all_bytes_app, Hx, Hsep, IH.
Qed.

(** ** The policy table built by New *)

(** Membership in a list with a known head. *)
Ltac elem_cons := rewrite elem_of_cons; intuition congruence.

Lemma exists_in_true (m : gmap string attributeConfig) a :
  exists_in m a = true -> is_Some (m !! a).
Proof. unfold exists_in. intros H. by apply bool_decide_eq_true in H. Qed.

Lemma exists_in_false (m : gmap string attributeConfig) a :
  exists_in m a = false -> m !! a = None.
Proof.
  unfold exists_in. intros H. apply bool_decide_eq_false in H.
  by apply eq_None_not_Some.
Qed.

Lemma lookup_registerCustom (m : gmap string attributeConfig) l k :
  registerCustom m l !! k
  = if decide (k ∈ names l) then Some escapeConfig else m !! k.
Proof.
  revert m. induction l as [|a l IH]; intros m.
  - rewrite decide_False by apply not_elem_of_nil. reflexivity.
  - unfold registerCustom in *. cbn [foldl]. rewrite IH.
    change (names (a :: l)) with (Name a :: names l).
    destruct (decide (k ∈ names l)) as [Hin|Hnin].
    + rewrite decide_True; [done|]. elem_cons.
    + destruct (decide (k = Name a)) as [->|Hne].
      * rewrite lookup_insert_eq. rewrite decide_True; [done|]. elem_cons.
      * rewrite lookup_insert_ne by done. rewrite decide_False; [done|].
        elem_cons.
Qed.

Lemma defaultStep_lookup custom (m : gmap string attributeConfig) a k :
  all_escape m ->
  defaultStep custom m a !! k = if decide (k = a) then Some escapeConfig else m !! k.
Proof.
  intros Hm. unfold defaultStep.
  destruct (not_nil custom && exists_in m a) eqn:E.
  - apply andb_prop in E as [_ [c Hc]%exists_in_true].
    case_decide as Hk; [subst k|done]. rewrite Hc. f_equal. by eapply Hm.
  - case_decide as Hk; [subst k; by rewrite lookup_insert_eq|].
    by rewrite lookup_insert_ne.
Qed.

Lemma defaultStep_all_escape custom m a : all_escape m -> all_escape (defaultStep custom m a).
Proof.
  intros Hm k c. rewrite defaultStep_lookup by done.
  case_decide; [congruence|]. apply Hm.
Qed.

Lemma default_loop_lookup custom attrs (m : gmap string attributeConfig) k :
  all_escape m ->
  foldl (defaultStep custom) m attrs !! k
  = if decide (k ∈ attrs) then Some escapeConfig else m !! k.
Proof.
  revert m. induction attrs as [|a attrs IH]; intros m Hm; cbn [foldl].
  - rewrite decide_False by apply not_elem_of_nil. reflexivity.
  - rewrite IH by by apply defaultStep_all_escape.
    rewrite defaultStep_lookup by done.
    destruct (decide (k ∈ attrs)) as [Hin|Hnin].
    + rewrite decide_True; [done|]. elem_cons.
    + destruct (decide (k = a)) as [->|Hne].
      * rewrite decide_True; [done|]. elem_cons.
      * rewrite decide_False; [done|]. elem_cons.
Qed.

Section PolicyFacts.

Variable net_url : NetURL.

Lemma urlStep_Some l (m : gmap string attributeConfig) a :
  urlStep net_url (Some l) m a
  = if exists_in m a then m else registerCustom (<[a := urlConfig net_url]> m) l.
Proof. unfold urlStep. simpl. by destruct (exists_in m a). Qed.

(** With the nil slice a turn of the URL loop changes nothing. *)
Lemma urlStep_None (m : gmap string attributeConfig) a :
  urlStep net_url None m a = m.
Proof. reflexivity. Qed.

Lemma url_loop_None attrs (m : gmap string attributeConfig) :
  foldl (urlStep net_url None) m attrs = m.
Proof. revert m. induction attrs as [|a attrs IH]; intros m; simpl; [done|]. by rewrite IH. Qed.

(** A name outside the custom list: the URL loop registers the URL
    sanitizer for it when it is a URL attribute with no entry yet. *)
Lemma url_loop_other l attrs (m : gmap string attributeConfig) k :
  k ∉ names l ->
  foldl (urlStep net_url (Some l)) m attrs !! k
  = match m !! k with
    | Some c => Some c
    | None => if decide (k ∈ attrs) then Some (urlConfig net_url) else None
    end.
Proof.
  intros Hk. revert m. induction attrs as [|a attrs IH]; intros m; cbn [foldl].
  - destruct (m !! k); [done|]. rewrite decide_False by apply not_elem_of_nil. reflexivity.
  - rewrite IH, urlStep_Some.
    destruct (exists_in m a) eqn:E.
    + destruct (m !! k) eqn:Hmk; [done|].
      apply exists_in_true in E as [c Hc].
      assert (k ≠ a) by congruence.
      destruct (decide (k ∈ attrs)).
      * rewrite decide_True; [done|]. elem_cons.
      * rewrite decide_False; [done|]. elem_cons.
    + apply exists_in_false in E.
      rewrite lookup_registerCustom, decide_False by done.
      destruct (decide (k = a)) as [->|Hne].
      * rewrite lookup_insert_eq, E. rewrite decide_True; [done|]. elem_cons.
      * rewrite lookup_insert_ne by done.
        destruct (m !! k); [done|].
        destruct (decide (k ∈ attrs)).
        -- rewrite decide_True; [done|]. elem_cons.
        -- rewrite decide_False; [done|]. elem_cons.
Qed.

(** A name of the custom list: once one turn of the URL loop has reached its
    inner loop, the name is registered escape-only, and no later turn
    changes that. *)
Lemma url_loop_custom l attrs (m : gmap string attributeConfig) k :
  k ∈ names l ->
  m !! k = Some escapeConfig ∨ (∃ a, a ∈ attrs ∧ m !! a = None) ->
  foldl (urlStep net_url (Some l)) m attrs !! k = Some escapeConfig.
Proof.
  intros Hk. revert m. induction attrs as [|a attrs IH]; intros m Hm; cbn [foldl].
  - destruct Hm as [Hm|(a & Ha & _)]; [done|]. by apply elem_of_nil in Ha.
  - apply IH. rewrite urlStep_Some.
    destruct (exists_in m a) eqn:E.
    + destruct Hm as [Hm|(b & Hb & Hmb)]; [by left|].
      right. exists b. split; [|done].
      apply elem_of_cons in Hb as [->|Hb]; [|done].
      apply exists_in_true in E as [c Hc]. congruence.
    + left. by rewrite lookup_registerCustom, decide_True.
Qed.

Lemma url_not_default : Forall (fun k => k ∉ defaultAllowed) defaultAllowedUrl.
Proof. compute_done. Qed.

Lemma all_escape_empty : all_escape ∅.
Proof. intros k c. by rewrite lookup_empty. Qed.

(** The table of a generator built from a slice that is not nil. *)
Lemma New_lookup l k :
  allowedAttributes (New net_url (Some l)) !! k
  = if decide (k ∈ names l) then Some escapeConfig
    else if decide (k ∈ defaultAllowed) then Some escapeConfig
    else if decide (k ∈ defaultAllowedUrl) then Some (urlConfig net_url)
    else None.
Proof.
  unfold New. cbn [allowedAttributes].
  destruct (decide (k ∈ names l)) as [Hin|Hnin].
  - apply url_loop_custom; [done|]. right. exists "href". split; [compute_done|].
    rewrite default_loop_lookup by apply all_escape_empty.
    rewrite decide_False; [apply lookup_empty|]. compute_done.
  - rewrite url_loop_other by done.
    rewrite default_loop_lookup by apply all_escape_empty.
    rewrite lookup_empty. by destruct (decide (k ∈ defaultAllowed)).
Qed.

(** The table of a generator built from the nil slice: the defaults only. *)
Lemma New_nil_lookup k :
  allowedAttributes (New net_url None) !! k
  = if decide (k ∈ defaultAllowed) then Some escapeConfig else None.
Proof.
  unfold New. cbn [allowedAttributes].
  rewrite url_loop_None, default_loop_lookup by apply all_escape_empty.
  by rewrite lookup_empty.
Qed.

(** Whatever the argument, an entry is the escape-only one or, under a URL
    attribute name, the URL one. *)
Lemma New_entries custom k c :
  allowedAttributes (New net_url custom) !! k = Some c ->
  c = escapeConfig ∨ (c = urlConfig net_url ∧ k ∈ defaultAllowedUrl).
Proof.
  destruct custom as [l|].
  - rewrite New_lookup. repeat case_decide; intros; simplify_eq; auto.
  - rewrite New_nil_lookup. case_decide; intros; simplify_eq; auto.
Qed.

End PolicyFacts.

(** ** setAttribute *)

Lemma setAttribute_allowed g e key value c :
  allowedAttributes g !! key = Some c ->
  allowed c = true ->
  eAttributes (setAttribute g e key value)
  = if String.eqb key "class"
    then <[key := attr_get (eAttributes e) key ++ strings_Fields (sanitized c value)]>
           (eAttributes e)
    else if String.eqb key "style"
    then <[key := attr_get (eAttributes e) key ++ [sanitized c value]]> (eAttributes e)
    else <[key := [sanitized c value]]> (eAttributes e).
Proof.
  intros Hc Ha. unfold setAttribute. rewrite Hc, Ha. cbn [mbind option_bind].
  unfold sanitized. by destruct (String.eqb key "class"), (String.eqb key "style").
Qed.

Lemma setAttribute_replace g e key value c :
  allowedAttributes g !! key = Some c ->
  allowed c = true ->
  key ≠ "class" -> key ≠ "style" ->
  setAttribute g e key value
  = setAttributes e (<[key := [sanitized c value]]> (eAttributes e)).
Proof.
  intros Hc Ha H1 H2. unfold setAttribute. rewrite Hc, Ha. cbn [mbind option_bind].
  apply String.eqb_neq in H1, H2. by rewrite H1, H2.
Qed.

Lemma setAttribute_unknown g e key value :
  allowedAttributes g !! key = None ->
  setAttribute g e key value
  = if strings_HasPrefix key "js-" || strings_HasPrefix key "data-"
    then setAttributes e (<[key := [html_EscapeString value]]> (eAttributes e))
    else setAttributes e (<["data-" +:+ key := [html_EscapeString value]]> (eAttributes e)).
Proof.
  intros Hc. unfold setAttribute. rewrite Hc.
  by destruct (strings_HasPrefix key "js-"), (strings_HasPrefix key "data-").
Qed.

Lemma setAttribute_frame g e key value :
  eTag (setAttribute g e key value) = eTag e
  ∧ eChildren (setAttribute g e key value) = eChildren e
  ∧ eContent (setAttribute g e key value) = eContent e.
Proof.
  unfold setAttribute.
  by repeat match goal with |- context [if ?b then _ else _] => destruct b end.
Qed.

Lemma url_names_replace :
  Forall (fun k => k ≠ "class" ∧ k ≠ "style"
                   ∧ strings_HasPrefix k "js-" = false
                   ∧ strings_HasPrefix k "data-" = false) defaultAllowedUrl.
Proof. repeat constructor; discriminate. Qed.

(** ** The URL sanitizer *)

Lemma urlSanitizeFunc_javascript net_url s u :
  url_Parse net_url s = Some u -> Scheme u = "javascript" ->
  urlSanitizeFunc net_url s = "#".
Proof. unfold urlSanitizeFunc. by intros -> ->. Qed.

Lemma urlSanitizeFunc_serialized net_url s u :
  url_Parse net_url s = Some u ->
  Scheme u ≠ "javascript" ->
  Scheme u ≠ "" ∨ strings_HasPrefix (Path u) "/" = true ->
  urlSanitizeFunc net_url s = html_EscapeString (URL_String net_url u).
Proof.
  unfold urlSanitizeFunc. intros -> Hjs Hrest.
  apply String.eqb_neq in Hjs. rewrite Hjs.
  destruct Hrest as [He|Hp].
  - apply String.eqb_neq in He. by rewrite He.
  - rewrite Hp. by destruct (String.eqb (Scheme u) "").
Qed.

(** C2.  The URL sanitizer answers ["#"] when the text does not parse, when
    the parsed scheme is [javascript], and when the scheme is empty and the
    path does not start with a slash; in every other case, so for a scheme
    [http] or [https] and for a rooted path, it answers the escaped string
    form of the parsed URL. *)
Theorem urlSanitizeFunc_cases (net_url : NetURL) (s : string) :
  (url_Parse net_url s = None -> urlSanitizeFunc net_url s = "#")
  ∧ (∀ u, url_Parse net_url s = Some u -> Scheme u = "javascript" ->
          urlSanitizeFunc net_url s = "#")
  ∧ (∀ u, url_Parse net_url s = Some u -> Scheme u = "" ->
          strings_HasPrefix (Path u) "/" = false ->
          urlSanitizeFunc net_url s = "#")
  ∧ (∀ u, url_Parse net_url s = Some u -> Scheme u ≠ "javascript" ->
          Scheme u ≠ "" ∨ strings_HasPrefix (Path u) "/" = true ->
          urlSanitizeFunc net_url s = html_EscapeString (URL_String net_url u))
  ∧ (∀ u, url_Parse net_url s = Some u -> Scheme u = "http" ∨ Scheme u = "https" ->
          urlSanitizeFunc net_url s = html_EscapeString (URL_String net_url u)).
Proof.
  split; [|split; [|split; [|split]]].
  - unfold urlSanitizeFunc. by intros ->.
  - intros u Hu Hjs. by apply (urlSanitizeFunc_javascript net_url s u).
  - unfold urlSanitizeFunc. intros u -> -> ->. reflexivity.
  - intros u Hu Hjs Hrest. by apply urlSanitizeFunc_serialized.
  - intros u Hu [Hs|Hs]; apply urlSanitizeFunc_serialized; try done;
      rewrite Hs; (discriminate || by left).
Qed.

Lemma urlSanitizeFunc_cases_witness :
  urlSanitizeFunc sample_url "https://example.com/a?x=1&y=2"
  = "https://example.com/a?x=1&amp;y=2"
  ∧ urlSanitizeFunc sample_url "javascript:alert(1)" = "#"
  ∧ urlSanitizeFunc sample_url "foo/bar" = "#"
  ∧ urlSanitizeFunc sample_url "/a/b" = "/a/b".
Proof.
  split; [|split; [|split]].
  - destruct (urlSanitizeFunc_cases sample_url "https://example.com/a?x=1&y=2")
      as (_ & _ & _ & _ & H).
    rewrite (H (mkURL "https" "" "example.com" "/a" false false "x=1&y=2" ""));
      [reflexivity | reflexivity | by right].
  - destruct (urlSanitizeFunc_cases sample_url "javascript:alert(1)") as (_ & H & _).
    apply (H (mkURL "javascript" "alert(1)" "" "" false false "" "")); reflexivity.
  - destruct (urlSanitizeFunc_cases sample_url "foo/bar") as (_ & _ & H & _).
    apply (H (mkURL "" "" "" "foo/bar" false false "" "")); reflexivity.
  - destruct (urlSanitizeFunc_cases sample_url "/a/b") as (_ & _ & _ & H & _).
    rewrite (H (mkURL "" "" "" "/a/b" false false "" ""));
      [reflexivity | reflexivity | discriminate | by right].
Defined.

(** ** URL attributes and custom attributes *)

Lemma url_name_facts k :
  k ∈ defaultAllowedUrl ->
  (k ∉ defaultAllowed) ∧ k ≠ "class" ∧ k ≠ "style"
  ∧ strings_HasPrefix k "js-" = false ∧ strings_HasPrefix k "data-" = false.
Proof.
  intros Hk. split.
  - by apply (proj1 (Forall_forall _ _) url_not_default).
  - by apply (proj1 (Forall_forall _ _) url_names_replace).
Qed.

(** C1, as amended.  For a generator built from a custom list that is not
    nil (the empty list included) and a URL attribute name that the list
    does not contain, [setAttribute] stores exactly the URL-sanitized value
    under the name; for a value whose parsed scheme is [javascript] the
    stored value is ["#"]. *)
Theorem url_attribute_validated
    (net_url : NetURL) (l : list Attribute) (k v : string) (e : Element) :
  k ∈ defaultAllowedUrl ->
  k ∉ names l ->
  setAttribute (New net_url (Some l)) e k v
  = setAttributes e (<[k := [urlSanitizeFunc net_url v]]> (eAttributes e))
  ∧ (∀ u, url_Parse net_url v = Some u -> Scheme u = "javascript" ->
          eAttributes (setAttribute (New net_url (Some l)) e k v) !! k = Some ["#"]).
Proof.
  intros Hk Hl.
  destruct (url_name_facts k Hk) as (Hd & Hc & Hs & _).
  assert (Hset : setAttribute (New net_url (Some l)) e k v
    = setAttributes e (<[k := [urlSanitizeFunc net_url v]]> (eAttributes e))).
  { rewrite (setAttribute_replace _ _ _ _ (urlConfig net_url)); try done.
    rewrite New_lookup. by rewrite !decide_False, decide_True by done. }
  split; [done|].
  intros u Hu Hjs. rewrite Hset. cbn [eAttributes setAttributes].
  rewrite lookup_insert_eq.
  by rewrite (urlSanitizeFunc_javascript net_url v u Hu Hjs).
Qed.

Lemma url_attribute_validated_witness :
  eAttributes (setAttribute (New sample_url (Some [])) (newElement (NormalTag "a"))
                 "href" "javascript:alert(1)") !! "href" = Some ["#"].
Proof.
  refine (proj2 (url_attribute_validated sample_url [] "href" "javascript:alert(1)"
                   (newElement (NormalTag "a")) _ _)
            (mkURL "javascript" "alert(1)" "" "" false false "" "") _ _).
  - unfold defaultAllowedUrl. simpl. apply elem_of_cons. by left.
  - apply not_elem_of_nil.
  - reflexivity.
  - reflexivity.
Defined.

(** C1, the statement refuted: [href] is a URL attribute and the value
    parses with scheme [javascript], yet with [href] in the custom list the
    value is stored as it is. *)
Lemma url_attribute_in_custom_list_not_validated :
  "href" ∈ defaultAllowedUrl
  ∧ Scheme <$> url_Parse sample_url "javascript:alert(1)" = Some "javascript"
  ∧ eAttributes (setAttribute (New sample_url (Some [ {| Name := "href" |} ]))
                   (newElement (NormalTag "a")) "href" "javascript:alert(1)") !! "href"
    = Some ["javascript:alert(1)"].
Proof.
  split; [compute_done|]. split; [reflexivity|]. vm_compute. reflexivity.
Qed.

(** X1.  With the nil slice no URL attribute is registered: a URL attribute name
    is then an unknown name, stored escape-only under [data-] and the
    name. *)
Theorem New_nil_registers_no_url_attribute (net_url : NetURL) (e : Element) (v : string) :
  Forall (fun k =>
            allowedAttributes (New net_url None) !! k = None
            ∧ setAttribute (New net_url None) e k v
              = setAttributes e (<["data-" +:+ k := [html_EscapeString v]]> (eAttributes e)))
    defaultAllowedUrl.
Proof.
  apply Forall_forall. intros k Hk.
  destruct (url_name_facts k Hk) as (Hd & _ & _ & Hjs & Hdata).
  assert (Hnone : allowedAttributes (New net_url None) !! k = None).
  { rewrite New_nil_lookup. by rewrite decide_False. }
  split; [done|]. rewrite setAttribute_unknown by done. by rewrite Hjs, Hdata.
Qed.

(** The link of the example program, which builds its generator with
    [New(nil)]: the [javascript] URL is escaped and written under
    [data-href]. *)
Example malicious_link_of_example :
  Generate rangeMapOrder
    (run (New sample_url None)
       [ ([], OpAdd "a");
         ([0], OpWithAttrs [ KV "href" "javascript:alert('XSS')" ]);
         ([0], OpAddString "Don't click me") ])
  = "<a data-href=" +:+ dq +:+ "javascript:alert(&#39;XSS&#39;)" +:+ dq
      +:+ ">Don&#39;t click me</a>".
Proof. vm_compute. reflexivity. Qed.

(** C3, as amended.  For a custom list that is not nil, every name of the
    list ends up registered escape-only.  When the name is a default
    escape-only attribute the entry is the one the defaults give; when it is
    a built-in URL attribute the escape-only entry stands in place of the
    URL one; a name with neither [class] nor [style] as its text is stored
    in Replace mode.  A name that is not in the list keeps the entry the
    built-ins give it. *)
Theorem custom_names_registered_escape_only
    (net_url : NetURL) (l : list Attribute) (n : string) :
  n ∈ names l ->
  allowedAttributes (New net_url (Some l)) !! n = Some escapeConfig
  ∧ (n ∈ defaultAllowed ->
     allowedAttributes (New net_url (Some l)) !! n
     = allowedAttributes (New net_url (Some [])) !! n)
  ∧ (n ∈ defaultAllowedUrl ->
     allowedAttributes (New net_url (Some [])) !! n = Some (urlConfig net_url))
  ∧ (n ≠ "class" -> n ≠ "style" -> ∀ e v,
     setAttribute (New net_url (Some l)) e n v
     = setAttributes e (<[n := [html_EscapeString v]]> (eAttributes e)))
  ∧ (∀ k, k ∉ names l ->
     allowedAttributes (New net_url (Some l)) !! k
     = allowedAttributes (New net_url (Some [])) !! k).
Proof.
  intros Hn.
  assert (Hesc : allowedAttributes (New net_url (Some l)) !! n = Some escapeConfig).
  { rewrite New_lookup. by rewrite decide_True. }
  split; [done|]. split; [|split; [|split]].
  - intros Hd. rewrite Hesc, New_lookup.
    rewrite decide_False by apply not_elem_of_nil. by rewrite decide_True.
  - intros Hu. destruct (url_name_facts n Hu) as (Hd & _).
    rewrite New_lookup. rewrite decide_False by apply not_elem_of_nil.
    by rewrite decide_False, decide_True.
  - intros Hc Hs e v. by rewrite (setAttribute_replace _ _ _ _ escapeConfig).
  - intros k Hk. rewrite !New_lookup. rewrite (decide_False (P := k ∈ names l)) by done.
    by rewrite (decide_False (P := k ∈ names [])) by apply not_elem_of_nil.
Qed.

Lemma custom_names_registered_escape_only_witness :
  allowedAttributes (New sample_url (Some [ {| Name := "x-row" |}; {| Name := "src" |} ]))
    !! "x-row" = Some escapeConfig.
Proof.
  refine (proj1 (custom_names_registered_escape_only sample_url
                   [ {| Name := "x-row" |}; {| Name := "src" |} ] "x-row" _)).
  unfold names. simpl. apply elem_of_cons. by left.
Defined.

(** C3, the statement refuted: [src] is a built-in URL attribute; named in
    the custom list, its entry is the escape-only one, and a [javascript]
    URL that the built-in entry turns into ["#"] is stored as it is. *)
Lemma custom_name_replaces_url_entry :
  allowedAttributes (New sample_url (Some [])) !! "src" = Some (urlConfig sample_url)
  ∧ allowedAttributes (New sample_url (Some [ {| Name := "src" |} ])) !! "src"
    = Some escapeConfig
  ∧ sanitized (urlConfig sample_url) "javascript:alert(1)" = "#"
  ∧ sanitized escapeConfig "javascript:alert(1)" = "javascript:alert(1)".
Proof.
  split; [|split; [|split]].
  - rewrite New_lookup. reflexivity.
  - rewrite New_lookup. reflexivity.
  - reflexivity.
  - reflexivity.
Qed.

(** ** Stored fragments cannot close the attribute value *)

Lemma all_bytes_impl (p q : ascii -> bool) s :
  (∀ c, p c = true -> q c = true) -> all_bytes p s = true -> all_bytes q s = true.
Proof.
  intros Hpq. unfold all_bytes. induction (bytes s) as [|c l IH]; [done|].
  simpl. intros [Hc Hl]%andb_prop. by rewrite (Hpq c Hc), IH.
Qed.

Lemma html_EscapeString_quote_safe s : quote_safe (html_EscapeString s) = true.
Proof.
  eapply all_bytes_impl; [|apply html_EscapeString_no_markup].
  intros c. unfold markup_byte.
  by destruct (Ascii.eqb c "<"), (Ascii.eqb c ">"), (Ascii.eqb c dquote).
Qed.

Lemma urlSanitizeFunc_quote_safe net_url s : quote_safe (urlSanitizeFunc net_url s) = true.
Proof.
  unfold urlSanitizeFunc. destruct (url_Parse net_url s) as [u|]; [|reflexivity].
  destruct (String.eqb (Scheme u) "javascript"); [reflexivity|].
  destruct (String.eqb (Scheme u) "" && negb (strings_HasPrefix (Path u) "/"));
    [reflexivity|apply html_EscapeString_quote_safe].
Qed.

Lemma fragments_safe (v : list string) :
  Forall (fun f => quote_safe f = true) v ->
  Forall (fun f => quote_safe f = true) v ∧ quote_safe (strings_Join v " ") = true.
Proof. intros Hv. split; [done|]. by apply strings_Join_all. Qed.

Lemma attr_get_safe (a : Attributes) key :
  attrs_safe a -> Forall (fun f => quote_safe f = true) (attr_get a key).
Proof.
  intros Ha. unfold attr_get. destruct (a !! key) as [v|] eqn:E; [|constructor].
  by destruct (Ha key v E).
Qed.

Lemma sanitized_safe net_url custom key c value :
  allowedAttributes (New net_url custom) !! key = Some c ->
  quote_safe (sanitized c value) = true.
Proof.
  intros [->|[-> _]]%New_entries; unfold sanitized; simpl.
  - apply html_EscapeString_quote_safe.
  - apply urlSanitizeFunc_quote_safe.
Qed.

Lemma allowed_New net_url custom key c :
  allowedAttributes (New net_url custom) !! key = Some c -> allowed c = true.
Proof. by intros [->|[-> _]]%New_entries. Qed.

Lemma setAttribute_shape g e key value :
  setAttribute g e key value = setAttributes e (eAttributes (setAttribute g e key value)).
Proof.
  unfold setAttribute.
  by repeat match goal with |- context [if ?b then _ else _] => destruct b end.
Qed.

(** One assignment keeps every fragment of the element safe. *)
Lemma setAttribute_attrs_safe net_url custom e key value :
  attrs_safe (eAttributes e) ->
  attrs_safe (eAttributes (setAttribute (New net_url custom) e key value)).
Proof.
  intros Ha.
  assert (Hesc : Forall (fun f => quote_safe f = true) [html_EscapeString value]).
  { constructor; [apply html_EscapeString_quote_safe|constructor]. }
  destruct (allowedAttributes (New net_url custom) !! key) as [c|] eqn:Hc.
  - rewrite (setAttribute_allowed _ _ _ _ c Hc (allowed_New _ _ _ _ Hc)).
    pose proof (sanitized_safe _ _ _ _ value Hc) as Hs.
    destruct (String.eqb key "class"); [|destruct (String.eqb key "style")];
      apply map_Forall_insert_2; try done; apply fragments_safe.
    + apply Forall_app. split; [by apply attr_get_safe|].
      by apply strings_Fields_all.
    + apply Forall_app. split; [by apply attr_get_safe|]. by repeat constructor.
    + by repeat constructor.
  - rewrite setAttribute_unknown by done.
    destruct (strings_HasPrefix key "js-" || strings_HasPrefix key "data-");
      cbn [eAttributes setAttributes]; apply map_Forall_insert_2; try done;
      by apply fragments_safe.
Qed.

Lemma tree_safe_setAttributes e a :
  tree_safe e -> attrs_safe a -> tree_safe (setAttributes e a).
Proof. intros [tag attrs children content _ Hc] Ha. by constructor. Qed.

Lemma tree_safe_attrs e : tree_safe e -> attrs_safe (eAttributes e).
Proof. by intros [tag attrs children content Ha _]. Qed.

Lemma tree_safe_newElement tag : tree_safe (newElement tag).
Proof. constructor; [apply map_Forall_empty|constructor]. Qed.

Lemma setAttribute_tree_safe net_url custom e key value :
  tree_safe e -> tree_safe (setAttribute (New net_url custom) e key value).
Proof.
  intros He. rewrite setAttribute_shape. apply tree_safe_setAttributes; [done|].
  by apply setAttribute_attrs_safe, tree_safe_attrs.
Qed.

Lemma WithAttrs_tree_safe net_url custom attrs e :
  tree_safe e -> tree_safe (WithAttrs (New net_url custom) e attrs).
Proof.
  revert e. unfold WithAttrs. induction attrs as [|kv attrs IH]; intros e He; [done|].
  cbn [foldl]. by apply IH, setAttribute_tree_safe.
Qed.

(** Every operation keeps the tree under its receiver safe. *)
Lemma perform_tree_safe net_url custom op e :
  tree_safe e -> tree_safe (perform (New net_url custom) op e).
Proof.
  intros He. destruct op; cbn [perform].
  - destruct He as [t a cs ct Ha Hc]. constructor; [done|].
    apply Forall_app. split; [done|]. constructor; [apply tree_safe_newElement|constructor].
  - destruct He as [t a cs ct Ha Hc]. constructor; [done|].
    apply Forall_app. split; [done|]. constructor; [apply tree_safe_newElement|constructor].
  - by apply setAttribute_tree_safe.
  - by apply WithAttrs_tree_safe.
  - destruct He as [t a cs ct Ha Hc]. by constructor.
Qed.

Lemma applyAt_tree_safe (f : Element -> Element) p e :
  (∀ e', tree_safe e' -> tree_safe (f e')) ->
  tree_safe e -> tree_safe (applyAt p f e).
Proof.
  intros Hf. revert e. induction p as [|i p IH]; intros e He; cbn [applyAt]; [by apply Hf|].
  destruct He as [tag attrs children content Ha Hc]. constructor; [done|].
  apply Forall_alter; [done|]. intros x _ Hx. by apply IH.
Qed.

Lemma run_table g prog : allowedAttributes (run g prog) = allowedAttributes g.
Proof.
  revert g. unfold run. induction prog as [|c prog IH]; intros g; [done|].
  cbn [foldl]. by rewrite IH.
Qed.

(** C10.  Whatever the custom list and whatever calls are made on the
    tree ([Add], [AddVoid], [Attr], [WithAttrs], [AddString], on any
    element, under any key and value), every fragment stored in the
    attribute map of every element has no double quote and no [<], and
    neither has the value the serializer joins the fragments into. *)
Theorem stored_fragments_safe
    (net_url : NetURL) (custom : option (list Attribute)) (prog : list (list nat * Op)) :
  tree_safe (Root (run (New net_url custom) prog)).
Proof.
  assert (H : ∀ g, allowedAttributes g = allowedAttributes (New net_url custom) ->
            tree_safe (Root g) -> tree_safe (Root (run g prog))).
  { induction prog as [|[p op] prog IH]; intros g Hg Hroot; [done|].
    unfold run. cbn [foldl]. apply IH; [done|].
    cbn [call withRoot Root fst snd]. apply applyAt_tree_safe; [|done].
    intros e' He'.
    assert (Hp : perform g op e' = perform (New net_url custom) op e').
    { destruct op; cbn [perform]; try done; unfold Attr, WithAttrs, setAttribute;
        by rewrite Hg. }
    rewrite Hp. by apply perform_tree_safe. }
  apply H; [done|]. apply tree_safe_newElement.
Qed.

(** ** The escaper, as a whole *)

(** C7, the statement refuted for [&]: the escaped text of ["&"], and of
    ["<"], contains the byte [&]. *)
Lemma escaped_text_contains_ampersand :
  html_EscapeString "&" = "&amp;"
  ∧ byte_in "&" (html_EscapeString "&") = true
  ∧ byte_in "&" (html_EscapeString "<") = true.
Proof. repeat split. Qed.

(** C7, as amended.  The escaper works byte by byte: each of the five
    bytes [&], ['], [<], [>] and the double quote becomes its entity and
    every other byte is copied.  The output has no [<], no [>], no double
    quote and no [']; an [&] occurs in it only as the first byte of one of
    the five entities. *)
Theorem html_EscapeString_entities (s : string) :
  (∀ t, html_EscapeString (s +:+ t) = html_EscapeString s +:+ html_EscapeString t)
  ∧ (html_EscapeString "&" = "&amp;"
     ∧ html_EscapeString "'" = "&#39;"
     ∧ html_EscapeString "<" = "&lt;"
     ∧ html_EscapeString ">" = "&gt;"
     ∧ html_EscapeString dq = "&#34;")
  ∧ (∀ c, special_byte c = false -> html_EscapeString (String c "") = String c "")
  ∧ no_markup (html_EscapeString s) = true
  ∧ amp_begins_entity (html_EscapeString s) = true.
Proof.
  split; [|split; [|split; [|split]]].
  - intros t. apply html_EscapeString_app.
  - repeat split.
  - intros c Hc. cbn [html_EscapeString]. rewrite (htmlEscaper_plain c Hc). reflexivity.
  - apply html_EscapeString_no_markup.
  - apply html_EscapeString_amp.
Qed.

(** ** Replace mode *)

(** C9.  For an allowed key other than [class] and [style] the last
    assignment wins: after [Attr k v1] and [Attr k v2] the fragments under
    [k] are the one sanitized [v2], and the element is the one a single
    [Attr k v2] gives. *)
Theorem replace_last_write_wins
    (g : Generator) (e : Element) (k v1 v2 : string) (c : attributeConfig) :
  allowedAttributes g !! k = Some c ->
  allowed c = true ->
  k ≠ "class" ->
  k ≠ "style" ->
  eAttributes (Attr g (Attr g e k v1) k v2) !! k = Some [sanitized c v2]
  ∧ Attr g (Attr g e k v1) k v2 = Attr g e k v2.
Proof.
  intros Hc Ha H1 H2. unfold Attr.
  rewrite !(setAttribute_replace g _ k _ c Hc Ha H1 H2).
  cbn [eAttributes setAttributes eTag eChildren eContent]. split.
  - apply lookup_insert_eq.
  - unfold setAttributes. cbn. by rewrite insert_insert_eq.
Qed.

Lemma replace_last_write_wins_witness :
  eAttributes (Attr (New sample_url None)
                 (Attr (New sample_url None) (newElement (NormalTag "div")) "id" "btn1")
                 "id" "btn2") !! "id" = Some ["btn2"].
Proof.
  refine (proj1 (replace_last_write_wins (New sample_url None)
                   (newElement (NormalTag "div")) "id" "btn1" "btn2" escapeConfig _ _ _ _)).
  - rewrite New_nil_lookup. reflexivity.
  - reflexivity.
  - discriminate.
  - discriminate.
Defined.

(** ** Unknown attribute names *)

Lemma prefixed_name_replace key :
  strings_HasPrefix key "js-" = true ∨ strings_HasPrefix key "data-" = true ->
  key ≠ "class" ∧ key ≠ "style" ∧ key ∉ defaultAllowedUrl.
Proof.
  intros H. split; [|split].
  - intros ->. by destruct H.
  - intros ->. by destruct H.
  - intros Hk. destruct (url_name_facts key Hk) as (_ & _ & _ & Hj & Hd).
    rewrite Hj, Hd in H. by destruct H.
Qed.

(** ** Serialization of one element *)

Lemma writeAttributes_app l1 l2 :
  writeAttributes (l1 ++ l2) = writeAttributes l1 +:+ writeAttributes l2.
Proof.
  induction l1 as [|kv l1 IH]; [reflexivity|].
  cbn [app writeAttributes foldr]. fold (writeAttributes (l1 ++ l2)).
  fold (writeAttributes l1). by rewrite IH, append_assoc.
Qed.

Lemma generateHtml_children ord path children i :
  (fix each (i : nat) (cs : list Element) {struct cs} : string :=
     match cs with
     | [] => ""
     | child :: r => generateHtml ord (path ++ [i]) child +:+ each (S i) r
     end) i children
  = childrenHtml (generateHtml ord) path i children.
Proof.
  revert i. induction children as [|c cs IH]; intros i; [reflexivity|].
  cbn [childrenHtml]. by rewrite <- IH.
Qed.

Lemma generateHtml_root ord path e :
  name (eTag e) = "" ->
  generateHtml ord path e = childrenHtml (generateHtml ord) path 0 (eChildren e).
Proof.
  destruct e as [tag attrs children content]. cbn [eTag eChildren]. intros Hn.
  cbn [generateHtml]. rewrite Hn. cbn [String.eqb]. apply generateHtml_children.
Qed.

Lemma generateHtml_named ord path e :
  name (eTag e) ≠ "" ->
  generateHtml ord path e
  = "<" +:+ name (eTag e) +:+ writeAttributes (ord path (eAttributes e))
      +:+ afterAttributes ord path e.
Proof.
  destruct e as [tag attrs children content]. cbn [eTag eAttributes]. intros Hn.
  apply String.eqb_neq in Hn. cbn [generateHtml]. rewrite Hn.
  unfold afterAttributes. cbn [eTag eContent eChildren].
  destruct tag as [n|n].
  - rewrite generateHtml_children. cbn [name]. by rewrite !append_assoc.
  - by rewrite !append_assoc.
Qed.

Lemma afterAttributes_setAttributes ord path e a :
  afterAttributes ord path (setAttributes e a) = afterAttributes ord path e.
Proof. reflexivity. Qed.

(** A walk over a map that holds [key] meets [key] once. *)
Lemma range_split (ord : list nat -> Attributes -> list (string * list string))
    path (m : Attributes) key v :
  range_ok ord ->
  m !! key = Some v ->
  ∃ l1 l2, ord path m = l1 ++ (key, v) :: l2 ∧ (key ∉ l1.*1) ∧ (key ∉ l2.*1).
Proof.
  intros Hord Hm.
  assert (Hin : (key, v) ∈ ord path m).
  { rewrite (Hord path m). by apply elem_of_map_to_list. }
  destruct (list_elem_of_split _ _ Hin) as (l1 & l2 & Hsplit).
  exists l1, l2. split; [done|].
  assert (Hnd : NoDup ((ord path m).*1)).
  { rewrite (Hord path m). apply NoDup_fst_map_to_list. }
  rewrite Hsplit, fmap_app, fmap_cons in Hnd. cbn [fst] in Hnd.
  apply NoDup_app in Hnd as (_ & Hl1 & Hnd).
  apply NoDup_cons in Hnd as [Hl2 _]. split; [|done].
  intros H1. apply (Hl1 key H1). by left.
Qed.

Lemma range_singleton (ord : list nat -> Attributes -> list (string * list string))
    path key (v : list string) :
  range_ok ord -> ord path {[ key := v ]} = [(key, v)].
Proof.
  intros Hord. apply Permutation_singleton_r.
  by rewrite (Hord path _), map_to_list_singleton.
Qed.

Lemma rangeMapOrder_ok : range_ok rangeMapOrder.
Proof. by intros path m. Qed.

(** ** Void elements *)

(** C8, as amended.  An element whose tag is a void tag with a name that is
    not empty is written as the open tag with its attributes followed by
    [" />"]: whatever text and children it holds, none of them and no
    closing tag is written. *)
Theorem void_element_serialization
    (ord : list nat -> Attributes -> list (string * list string)) (path : list nat)
    (n : string) (attrs : Attributes) (children : list Element) (content : string) :
  n ≠ "" ->
  generateHtml ord path (mkElement (VoidTag n) attrs children content)
  = "<" +:+ n +:+ writeAttributes (ord path attrs) +:+ " />".
Proof. intros Hn. by rewrite generateHtml_named. Qed.

Lemma void_element_serialization_witness :
  generateHtml rangeMapOrder []
    (mkElement (VoidTag "br") {[ "id" := ["x"] ]} [newElement (NormalTag "div")] "text")
  = "<br id=" +:+ dq +:+ "x" +:+ dq +:+ " />".
Proof.
  rewrite (void_element_serialization rangeMapOrder [] "br"); [|discriminate].
  reflexivity.
Defined.

(** A void element made and filled through the tree: the child and the text
    attached to it are not written. *)
Example void_element_document :
  Generate rangeMapOrder
    (run (New sample_url None)
       [ ([], OpAddVoid "br"); ([0], OpAdd "div"); ([0], OpAddString "text");
         ([0], OpAttr "class" "clearfix") ])
  = "<br class=" +:+ dq +:+ "clearfix" +:+ dq +:+ " />".
Proof. vm_compute. reflexivity. Qed.

(** C8, the statement refuted: an element made by [AddVoid] with the empty
    name, to which a child was added, is written as its children, with
    neither an open tag nor [" />"]; the text holds a closing tag. *)
Lemma void_element_with_empty_name :
  Generate rangeMapOrder
    (run (New sample_url None)
       [ ([], OpAddVoid ""); ([0], OpAdd "div"); ([0], OpAddString "text") ])
  = "<div></div>".
Proof. vm_compute. reflexivity. Qed.

(** ** class and style *)

Lemma class_allowed net_url custom :
  allowedAttributes (New net_url custom) !! "class" = Some escapeConfig
  ∧ allowedAttributes (New net_url custom) !! "style" = Some escapeConfig.
Proof.
  destruct custom as [l|].
  - rewrite !New_lookup. split; by case_decide.
  - by rewrite !New_nil_lookup.
Qed.

(** Two assignments to [class] append the fields of both escaped values to
    the fragments the element holds. *)
Lemma class_accumulates g e v1 v2 :
  allowedAttributes g !! "class" = Some escapeConfig ->
  eAttributes (Attr g (Attr g e "class" v1) "class" v2)
  = <["class" := attr_get (eAttributes e) "class"
                 ++ strings_Fields (html_EscapeString v1)
                 ++ strings_Fields (html_EscapeString v2)]> (eAttributes e).
Proof.
  intros Hc. unfold Attr.
  rewrite (setAttribute_allowed _ _ _ _ escapeConfig Hc eq_refl). cbn [String.eqb Ascii.eqb Bool.eqb].
  rewrite (setAttribute_allowed _ _ _ _ escapeConfig Hc eq_refl). cbn [String.eqb Ascii.eqb Bool.eqb].
  unfold attr_get at 1. rewrite lookup_insert_eq. cbn [default from_option id].
  unfold sanitized. cbn [sanitizeFunc escapeConfig].
  by rewrite insert_insert_eq, <- app_assoc.
Qed.

(** Two assignments to [style] append both escaped values, each as one
    fragment. *)
Lemma style_accumulates g e v1 v2 :
  allowedAttributes g !! "style" = Some escapeConfig ->
  eAttributes (Attr g (Attr g e "style" v1) "style" v2)
  = <["style" := attr_get (eAttributes e) "style"
                 ++ [html_EscapeString v1; html_EscapeString v2]]> (eAttributes e).
Proof.
  intros Hs. unfold Attr.
  rewrite (setAttribute_allowed _ _ _ _ escapeConfig Hs eq_refl). cbn [String.eqb Ascii.eqb Bool.eqb].
  rewrite (setAttribute_allowed _ _ _ _ escapeConfig Hs eq_refl). cbn [String.eqb Ascii.eqb Bool.eqb].
  unfold attr_get at 1. rewrite lookup_insert_eq. cbn [default from_option id].
  unfold sanitized. cbn [sanitizeFunc escapeConfig].
  by rewrite insert_insert_eq, <- app_assoc.
Qed.

Lemma fields_of_a : strings_Fields (html_EscapeString "a") = ["a"].
Proof. vm_compute. reflexivity. Qed.

Lemma fields_of_b_c : strings_Fields (html_EscapeString "b c") = ["b"; "c"].
Proof. vm_compute. reflexivity. Qed.

Lemma write_class_abc : writeAttributes [("class", ["a"; "b"; "c"])] = class_abc.
Proof. vm_compute. reflexivity. Qed.

Lemma class_abc_written g ord path e :
  allowedAttributes g !! "class" = Some escapeConfig ->
  range_ok ord ->
  name (eTag e) ≠ "" ->
  eAttributes e !! "class" = None ->
  eAttributes (Attr g (Attr g e "class" "a") "class" "b c")
  = <["class" := ["a"; "b"; "c"]]> (eAttributes e)
  ∧ ∃ l1 l2,
      ord path (<["class" := ["a"; "b"; "c"]]> (eAttributes e))
      = l1 ++ ("class", ["a"; "b"; "c"]) :: l2
      ∧ ("class" ∉ l1.*1) ∧ ("class" ∉ l2.*1)
      ∧ generateHtml ord path (Attr g (Attr g e "class" "a") "class" "b c")
        = "<" +:+ name (eTag e) +:+ writeAttributes l1 +:+ class_abc
            +:+ writeAttributes l2 +:+ afterAttributes ord path e.
Proof.
  intros Hc Hord Hname Hnone.
  assert (Hattrs : eAttributes (Attr g (Attr g e "class" "a") "class" "b c")
                   = <["class" := ["a"; "b"; "c"]]> (eAttributes e)).
  { rewrite class_accumulates, fields_of_a, fields_of_b_c by done. unfold attr_get.
    rewrite Hnone. reflexivity. }
  split; [exact Hattrs|].
  destruct (range_split ord path (<["class" := ["a"; "b"; "c"]]> (eAttributes e))
              "class" ["a"; "b"; "c"] Hord (lookup_insert_eq _ _ _))
    as (l1 & l2 & Hsplit & H1 & H2).
  exists l1, l2. repeat (split; [assumption|]).
  unfold Attr in *.
  destruct (setAttribute_frame g e "class" "a") as (Ht1 & _).
  assert (Hafter : afterAttributes ord path (setAttribute g e "class" "a")
                   = afterAttributes ord path e).
  { rewrite setAttribute_shape. apply afterAttributes_setAttributes. }
  rewrite setAttribute_shape, Hattrs.
  rewrite generateHtml_named by (cbn [eTag setAttributes]; by rewrite Ht1).
  cbn [eTag eAttributes setAttributes]. rewrite Ht1, Hsplit.
  rewrite afterAttributes_setAttributes, Hafter.
  change (l1 ++ ("class", ["a"; "b"; "c"]) :: l2)
    with (l1 ++ [("class", ["a"; "b"; "c"])] ++ l2).
  rewrite !writeAttributes_app, write_class_abc, !append_assoc.
  reflexivity.
Qed.

(** C5, as amended.  Two assignments to [class] append the whitespace
    separated fields of both escaped values to the fragments the element
    holds, and the serializer joins the fragments with single spaces.  So on
    an element with a name that is not empty and with no class attribute
    yet, [Attr "class" "a"] and then [Attr "class" "b c"] leave the
    fragments [a], [b], [c] under [class], and the text of the element holds
    one class attribute, with the value [a b c], among its other attributes,
    in whatever order the attributes are walked. *)
Theorem class_values_accumulate (net_url : NetURL) (custom : option (list Attribute)) :
  (∀ e v1 v2,
     eAttributes (Attr (New net_url custom) (Attr (New net_url custom) e "class" v1) "class" v2)
     = <["class" := attr_get (eAttributes e) "class"
                    ++ strings_Fields (html_EscapeString v1)
                    ++ strings_Fields (html_EscapeString v2)]> (eAttributes e))
  ∧ (∀ v, writeAttribute ("class", v) = " class=" +:+ dq +:+ strings_Join v " " +:+ dq)
  ∧ (∀ (ord : list nat -> Attributes -> list (string * list string)) path e,
       range_ok ord ->
       name (eTag e) ≠ "" ->
       eAttributes e !! "class" = None ->
       eAttributes (Attr (New net_url custom)
                      (Attr (New net_url custom) e "class" "a") "class" "b c")
       = <["class" := ["a"; "b"; "c"]]> (eAttributes e)
       ∧ ∃ l1 l2,
           ord path (<["class" := ["a"; "b"; "c"]]> (eAttributes e))
           = l1 ++ ("class", ["a"; "b"; "c"]) :: l2
           ∧ ("class" ∉ l1.*1) ∧ ("class" ∉ l2.*1)
           ∧ generateHtml ord path
               (Attr (New net_url custom)
                  (Attr (New net_url custom) e "class" "a") "class" "b c")
             = "<" +:+ name (eTag e) +:+ writeAttributes l1 +:+ class_abc
                 +:+ writeAttributes l2 +:+ afterAttributes ord path e).
Proof.
  destruct (class_allowed net_url custom) as [Hc _].
  split; [|split].
  - intros e v1 v2. by apply class_accumulates.
  - intros v. reflexivity.
  - intros ord path e Hord Hname Hnone. by apply class_abc_written.
Qed.

Lemma class_values_accumulate_witness :
  eAttributes (Attr (New sample_url None)
                 (Attr (New sample_url None) (newElement (NormalTag "div")) "class" "a")
                 "class" "b c")
  = <["class" := ["a"; "b"; "c"]]> (eAttributes (newElement (NormalTag "div")))
  ∧ ∃ l1 l2,
      rangeMapOrder [] (<["class" := ["a"; "b"; "c"]]> (eAttributes (newElement (NormalTag "div"))))
      = l1 ++ ("class", ["a"; "b"; "c"]) :: l2
      ∧ ("class" ∉ l1.*1) ∧ ("class" ∉ l2.*1)
      ∧ generateHtml rangeMapOrder []
          (Attr (New sample_url None)
             (Attr (New sample_url None) (newElement (NormalTag "div")) "class" "a")
             "class" "b c")
        = "<" +:+ name (eTag (newElement (NormalTag "div"))) +:+ writeAttributes l1
            +:+ class_abc +:+ writeAttributes l2
            +:+ afterAttributes rangeMapOrder [] (newElement (NormalTag "div")).
Proof.
  refine (proj2 (proj2 (class_values_accumulate sample_url None)) rangeMapOrder []
            (newElement (NormalTag "div")) rangeMapOrder_ok _ _).
  - discriminate.
  - reflexivity.
Defined.

(** The same calls made through the tree: the text of the whole document. *)
Example class_a_b_c_document :
  Generate rangeMapOrder
    (run (New sample_url None)
       [ ([], OpAdd "div"); ([0], OpAttr "class" "a"); ([0], OpAttr "class" "b c") ])
  = "<div class=" +:+ dq +:+ "a b c" +:+ dq +:+ "></div>".
Proof. vm_compute. reflexivity. Qed.

(** C5, the statement refuted on two elements: on the root, whose
    attributes are never written, the text has no class attribute; on an
    element that holds a class already, the value is not [a b c]. *)
Lemma class_value_not_abc :
  Generate rangeMapOrder
    (run (New sample_url None) [ ([], OpAttr "class" "a"); ([], OpAttr "class" "b c") ])
  = ""
  ∧ Generate rangeMapOrder
      (run (New sample_url None)
         [ ([], OpAdd "div"); ([0], OpAttr "class" "x");
           ([0], OpAttr "class" "a"); ([0], OpAttr "class" "b c") ])
    = "<div class=" +:+ dq +:+ "x a b c" +:+ dq +:+ "></div>".
Proof. split; vm_compute; reflexivity. Qed.

(** C4, on the code: two assignments to [style] leave two fragments, and
    the serializer joins the fragments of every attribute with one space,
    so the two declarations are written with no semicolon between them. *)
Theorem style_fragments_joined_by_space :
  (∀ net_url custom e v1 v2,
     attr_get (eAttributes (Attr (New net_url custom)
                              (Attr (New net_url custom) e "style" v1) "style" v2)) "style"
     = attr_get (eAttributes e) "style" ++ [html_EscapeString v1; html_EscapeString v2])
  ∧ (∀ x y, writeAttribute ("style", [x; y]) = " style=" +:+ dq +:+ x +:+ " " +:+ y +:+ dq)
  ∧ Generate rangeMapOrder
      (run (New sample_url None)
         [ ([], OpAdd "div"); ([0], OpAttr "style" "color:red");
           ([0], OpAttr "style" "font-weight:bold") ])
    = "<div style=" +:+ dq +:+ "color:red font-weight:bold" +:+ dq +:+ "></div>".
Proof.
  split; [|split].
  - intros net_url custom e v1 v2.
    rewrite style_accumulates by apply class_allowed.
    unfold attr_get at 1. by rewrite lookup_insert_eq.
  - intros x y. unfold writeAttribute. cbn [fst snd String.eqb Ascii.eqb Bool.eqb strings_Join].
    by rewrite !append_assoc.
  - vm_compute. reflexivity.
Qed.

(** ** Unknown names and pass-through prefixes *)

Lemma onclick_no_prefix :
  strings_HasPrefix "onclick" "js-" || strings_HasPrefix "onclick" "data-" = false.
Proof. vm_compute. reflexivity. Qed.

Lemma data_onclick_written g ord path :
  allowedAttributes g !! "onclick" = None ->
  range_ok ord ->
  generateHtml ord path (Attr g (newElement (NormalTag "div")) "onclick" "x")
  = "<div data-onclick=" +:+ dq +:+ "x" +:+ dq +:+ "></div>".
Proof.
  intros Hnone Hord. unfold Attr.
  rewrite setAttribute_unknown, onclick_no_prefix by done.
  rewrite generateHtml_named by discriminate.
  cbn [eAttributes setAttributes newElement]. rewrite insert_empty.
  rewrite (range_singleton ord path _ _ Hord). reflexivity.
Qed.

Lemma onclick_unknown net_url custom :
  "onclick" ∉ names (elems custom) ->
  allowedAttributes (New net_url custom) !! "onclick" = None.
Proof.
  intros Hn. destruct custom as [l|].
  - rewrite New_lookup. rewrite decide_False by done. reflexivity.
  - rewrite New_nil_lookup. reflexivity.
Qed.

(** C6.  A key with no entry in the policy table that starts neither with
    [js-] nor with [data-] is stored escape-only, in Replace mode, under
    [data-] and the key; so [Attr "onclick" "x"] is written as the attribute
    [data-onclick] with the value [x].  A key that starts with [js-] or
    with [data-] is stored escape-only, in Replace mode, under the key
    itself. *)
Theorem unknown_attribute_demoted :
  (∀ g e key value,
     allowedAttributes g !! key = None ->
     strings_HasPrefix key "js-" = false ->
     strings_HasPrefix key "data-" = false ->
     setAttribute g e key value
     = setAttributes e (<["data-" +:+ key := [html_EscapeString value]]> (eAttributes e)))
  ∧ (∀ net_url custom e key value,
       strings_HasPrefix key "js-" = true ∨ strings_HasPrefix key "data-" = true ->
       setAttribute (New net_url custom) e key value
       = setAttributes e (<[key := [html_EscapeString value]]> (eAttributes e)))
  ∧ (∀ net_url custom ord path,
       range_ok ord ->
       "onclick" ∉ names (elems custom) ->
       eAttributes (Attr (New net_url custom) (newElement (NormalTag "div")) "onclick" "x")
       = {[ "data-onclick" := ["x"] ]}
       ∧ generateHtml ord path
           (Attr (New net_url custom) (newElement (NormalTag "div")) "onclick" "x")
         = "<div data-onclick=" +:+ dq +:+ "x" +:+ dq +:+ "></div>").
Proof.
  split; [|split].
  - intros g e key value Hnone Hjs Hdata.
    rewrite setAttribute_unknown by done. by rewrite Hjs, Hdata.
  - intros net_url custom e key value Hp.
    destruct (prefixed_name_replace key Hp) as (Hc & Hs & Hu).
    destruct (allowedAttributes (New net_url custom) !! key) as [c|] eqn:E.
    + destruct (New_entries _ _ _ _ E) as [->|[_ Hk]]; [|done].
      by rewrite (setAttribute_replace _ _ _ _ escapeConfig).
    + rewrite setAttribute_unknown by done.
      by destruct Hp as [-> | ->]; rewrite ?orb_true_r.
  - intros net_url custom ord path Hord Hn.
    pose proof (onclick_unknown net_url custom Hn) as Hnone.
    split; [|by apply data_onclick_written].
    unfold Attr. rewrite setAttribute_unknown, onclick_no_prefix by done.
    cbn [eAttributes newElement setAttributes]. by rewrite insert_empty.
Qed.

Lemma unknown_attribute_demoted_witness :
  setAttribute (New sample_url None) (newElement (NormalTag "div")) "onclick" "alert('Hi')"
  = setAttributes (newElement (NormalTag "div"))
      (<["data-" +:+ "onclick" := [html_EscapeString "alert('Hi')"]]>
         (eAttributes (newElement (NormalTag "div")))).
Proof.
  refine (proj1 unknown_attribute_demoted (New sample_url None)
            (newElement (NormalTag "div")) "onclick" "alert('Hi')" _ _ _).
  - rewrite New_nil_lookup. reflexivity.
  - reflexivity.
  - reflexivity.
Defined.

(** * Further properties of the package *)

(** ** The policy table of New, as a whole *)

(** X2.  A name has an entry in the table of [New] exactly when it is a
    default name or, for a custom list that is not nil, a URL attribute
    name or a name of the list; every entry is an allowed one. *)
Theorem New_table_domain (net_url : NetURL) (custom : option (list Attribute)) (k : string) :
  (is_Some (allowedAttributes (New net_url custom) !! k)
   ↔ k ∈ defaultAllowed
     ∨ ∃ l, custom = Some l ∧ (k ∈ defaultAllowedUrl ∨ k ∈ names l))
  ∧ (∀ c, allowedAttributes (New net_url custom) !! k = Some c -> allowed c = true).
Proof.
  split; [|intros c Hc; by apply (allowed_New net_url custom k)].
  destruct custom as [l|].
  - rewrite New_lookup. split.
    + intros Hsome.
      destruct (decide (k ∈ names l)); [right; exists l; auto|].
      destruct (decide (k ∈ defaultAllowed)); [by left|].
      destruct (decide (k ∈ defaultAllowedUrl)); [right; exists l; auto|].
      by destruct Hsome.
    + intros [Hd|(l' & [= <-] & [Hu|Hn])].
      * destruct (decide (k ∈ names l)); [done|]. by rewrite decide_True.
      * destruct (decide (k ∈ names l)); [done|].
        destruct (decide (k ∈ defaultAllowed)); [done|]. by rewrite decide_True.
      * by rewrite decide_True.
  - rewrite New_nil_lookup. split.
    + intros Hsome. destruct (decide (k ∈ defaultAllowed)); [by left|by destruct Hsome].
    + intros [Hd|(l' & [=] & _)]. by rewrite decide_True.
Qed.

(** X3.  The table of [New] depends on the custom list through the set of
    its names only: two lists with the same names, in any order and with
    any repetitions, give the same table. *)
Theorem New_table_names_only (net_url : NetURL) (l l' : list Attribute) :
  (∀ k, k ∈ names l ↔ k ∈ names l') ->
  allowedAttributes (New net_url (Some l)) = allowedAttributes (New net_url (Some l')).
Proof.
  intros Hsame. apply map_eq. intros k. rewrite !New_lookup.
  destruct (decide (k ∈ names l)) as [Hin|Hnin].
  - rewrite (decide_True (P := k ∈ names l')); [done|]. by apply Hsame.
  - rewrite (decide_False (P := k ∈ names l')); [done|].
    intros Hin'. by apply Hnin, Hsame.
Qed.

Lemma New_table_names_only_witness :
  allowedAttributes
    (New sample_url (Some [ {| Name := "x-row" |}; {| Name := "src" |} ]))
  = allowedAttributes
      (New sample_url
         (Some [ {| Name := "src" |}; {| Name := "x-row" |}; {| Name := "src" |} ])).
Proof.
  refine (New_table_names_only sample_url _ _ _).
  intros k. unfold names. simpl. rewrite !elem_of_cons, !elem_of_nil. tauto.
Defined.

(** ** What one assignment touches *)

Lemma storedName_spec g e key value :
  setAttribute g e key value
  = setAttributes e
      (<[storedName g key := attr_get (eAttributes (setAttribute g e key value))
                               (storedName g key)]> (eAttributes e)).
Proof.
  unfold setAttribute, storedName, attr_get.
  repeat match goal with |- context [if ?b then _ else _] => destruct b end;
    cbn [eAttributes setAttributes]; by rewrite lookup_insert_eq.
Qed.

(** X4.  An assignment changes one attribute only: [setAttribute] leaves
    the tag, the children and the text as they are, and every attribute
    other than the one it stores under ([key], or [data-] and [key]) keeps
    its fragments; so does [WithAttrs] for every name that none of its
    pairs stores under. *)
Theorem setAttribute_touches_one_name (g : Generator) (e : Element) :
  (∀ key value,
     eTag (setAttribute g e key value) = eTag e
     ∧ eChildren (setAttribute g e key value) = eChildren e
     ∧ eContent (setAttribute g e key value) = eContent e
     ∧ ∀ k, k ≠ storedName g key ->
            eAttributes (setAttribute g e key value) !! k = eAttributes e !! k)
  ∧ (∀ attrs,
       eTag (WithAttrs g e attrs) = eTag e
       ∧ eChildren (WithAttrs g e attrs) = eChildren e
       ∧ eContent (WithAttrs g e attrs) = eContent e
       ∧ ∀ k, Forall (fun kv => k ≠ storedName g (Key kv)) attrs ->
              eAttributes (WithAttrs g e attrs) !! k = eAttributes e !! k).
Proof.
  assert (Hone : ∀ e key value,
    eTag (setAttribute g e key value) = eTag e
    ∧ eChildren (setAttribute g e key value) = eChildren e
    ∧ eContent (setAttribute g e key value) = eContent e
    ∧ ∀ k, k ≠ storedName g key ->
           eAttributes (setAttribute g e key value) !! k = eAttributes e !! k).
  { intros e0 key value.
    destruct (setAttribute_frame g e0 key value) as (Ht & Hc & Hx).
    repeat (split; [done|]). intros k Hk.
    rewrite storedName_spec. cbn [eAttributes setAttributes].
    by rewrite lookup_insert_ne. }
  split; [apply Hone|].
  intros attrs. revert e. unfold WithAttrs.
  induction attrs as [|kv attrs IH]; intros e; cbn [foldl].
  - by repeat split.
  - destruct (IH (setAttribute g e (Key kv) (Value kv))) as (Ht & Hc & Hx & Ha).
    destruct (Hone e (Key kv) (Value kv)) as (Ht1 & Hc1 & Hx1 & Ha1).
    rewrite Ht, Hc, Hx. repeat (split; [done|]).
    intros k Hk. apply Forall_cons in Hk as [Hk1 Hk].
    by rewrite Ha, Ha1.
Qed.

(** X5.  Two keys that [setAttribute] stores under different names can be
    assigned in either order: the element is the same. *)
Theorem assignments_to_different_names_commute
    (g : Generator) (e : Element) (k1 v1 k2 v2 : string) :
  storedName g k1 ≠ storedName g k2 ->
  setAttribute g (setAttribute g e k1 v1) k2 v2
  = setAttribute g (setAttribute g e k2 v2) k1 v1.
Proof.
  intros Hne. unfold setAttribute, storedName, attr_get in *.
  repeat match goal with
         | |- context [if ?b then _ else _] => destruct b eqn:?
         | H : context [if ?b then _ else _] |- _ => destruct b eqn:?
         end;
    cbn [eAttributes setAttributes eTag eChildren eContent];
    rewrite ?lookup_insert_ne by done;
    unfold setAttributes; cbn; f_equal; by apply insert_insert_ne.
Qed.

Lemma assignments_to_different_names_commute_witness :
  setAttribute (New sample_url None)
    (setAttribute (New sample_url None) (newElement (NormalTag "div")) "class" "a") "id" "x"
  = setAttribute (New sample_url None)
      (setAttribute (New sample_url None) (newElement (NormalTag "div")) "id" "x") "class" "a".
Proof.
  refine (assignments_to_different_names_commute (New sample_url None)
            (newElement (NormalTag "div")) "class" "a" "id" "x" _).
  vm_compute. discriminate.
Defined.

(** X6.  A key with no entry and no prefix and the same key with [data-]
    before it are one attribute: for a generator built by [New] both
    assignments give the same element. *)
Theorem unknown_key_aliases_data_key
    (net_url : NetURL) (custom : option (list Attribute)) (e : Element) (key value : string) :
  allowedAttributes (New net_url custom) !! key = None ->
  strings_HasPrefix key "js-" = false ->
  strings_HasPrefix key "data-" = false ->
  setAttribute (New net_url custom) e key value
  = setAttribute (New net_url custom) e ("data-" +:+ key) value.
Proof.
  intros Hnone Hjs Hdata.
  rewrite (setAttribute_unknown _ _ key) by done. rewrite Hjs, Hdata. cbn [orb].
  assert (Hp : strings_HasPrefix ("data-" +:+ key) "js-" = true
               ∨ strings_HasPrefix ("data-" +:+ key) "data-" = true).
  { right. unfold strings_HasPrefix. simpl. by destruct key. }
  destruct (prefixed_name_replace _ Hp) as (Hc & Hs & Hu).
  destruct (allowedAttributes (New net_url custom) !! ("data-" +:+ key)) as [c|] eqn:E.
  - destruct (New_entries _ _ _ _ E) as [->|[_ Hk]]; [|done].
    by rewrite (setAttribute_replace _ _ _ _ escapeConfig).
  - rewrite setAttribute_unknown by done.
    by destruct Hp as [-> | ->]; rewrite ?orb_true_r.
Qed.

Lemma unknown_key_aliases_data_key_witness :
  setAttribute (New sample_url None) (newElement (NormalTag "div")) "onclick" "x"
  = setAttribute (New sample_url None) (newElement (NormalTag "div"))
      ("data-" +:+ "onclick") "x".
Proof.
  refine (unknown_key_aliases_data_key sample_url None _ "onclick" "x" _ _ _).
  - rewrite New_nil_lookup. reflexivity.
  - reflexivity.
  - reflexivity.
Defined.

(** ** Registration of one attribute *)

(** X7.  After [_allowAttribute name f] a value given for [name] is passed
    through [f], or through the escaper when [f] is nil, whatever entry
    [name] had before; every other key is treated as before; a second
    registration of the name replaces the first. *)
Theorem allowAttribute_registers
    (g : Generator) (name : string) (f : option (string -> string)) :
  (∀ e value, name ≠ "class" -> name ≠ "style" ->
     setAttribute (_allowAttribute g name f) e name value
     = setAttributes e
         (<[name := [match f with Some h => h value | None => html_EscapeString value end]]>
            (eAttributes e)))
  ∧ (∀ e key value, key ≠ name ->
       setAttribute (_allowAttribute g name f) e key value = setAttribute g e key value)
  ∧ (∀ f', _allowAttribute (_allowAttribute g name f') name f = _allowAttribute g name f)
  ∧ Root (_allowAttribute g name f) = Root g.
Proof.
  split; [|split; [|split]].
  - intros e value Hc Hs.
    rewrite (setAttribute_replace _ _ _ _ {| allowed := true; sanitizeFunc := f |});
      try done.
    cbn [allowedAttributes _allowAttribute]. apply lookup_insert_eq.
  - intros e key value Hne. unfold setAttribute.
    cbn [allowedAttributes _allowAttribute]. by rewrite lookup_insert_ne.
  - intros f'. unfold _allowAttribute. cbn [Root allowedAttributes].
    by rewrite insert_insert_eq.
  - reflexivity.
Qed.

Lemma allowAttribute_registers_witness :
  setAttribute (_allowAttribute (New sample_url None) "href" (Some (urlSanitizeFunc sample_url)))
    (newElement (NormalTag "a")) "href" "javascript:alert(1)"
  = setAttributes (newElement (NormalTag "a"))
      (<["href" := [urlSanitizeFunc sample_url "javascript:alert(1)"]]>
         (eAttributes (newElement (NormalTag "a")))).
Proof.
  refine (proj1 (allowAttribute_registers (New sample_url None) "href"
                   (Some (urlSanitizeFunc sample_url))) _ _ _ _); discriminate.
Defined.

(** ** Text content *)

Lemma html_EscapeString_plain s :
  all_bytes (fun c => negb (special_byte c)) s = true -> html_EscapeString s = s.
Proof.
  induction s as [|c s IH]; [done|]. unfold all_bytes. simpl.
  intros [Hc Hs]%andb_prop. apply negb_true_iff in Hc.
  rewrite (htmlEscaper_plain c Hc), (IH Hs). reflexivity.
Qed.

Lemma element_eta e : mkElement (eTag e) (eAttributes e) (eChildren e) (eContent e) = e.
Proof. by destruct e. Qed.

(** X8.  [AddString] appends: two calls give what one call with the
    joined text gives, a call with the empty text changes nothing, and a
    text with none of the five bytes is appended as it is.  The tag, the
    attributes and the children are left alone. *)
Theorem AddString_appends (e : Element) :
  (∀ a b, AddString (AddString e a) b = AddString e (a +:+ b))
  ∧ AddString e "" = e
  ∧ (∀ s, all_bytes (fun c => negb (special_byte c)) s = true ->
          eContent (AddString e s) = eContent e +:+ s)
  ∧ (∀ s, eTag (AddString e s) = eTag e
          ∧ eAttributes (AddString e s) = eAttributes e
          ∧ eChildren (AddString e s) = eChildren e).
Proof.
  split; [|split; [|split]].
  - intros a b. unfold AddString. cbn [eTag eAttributes eChildren eContent].
    by rewrite html_EscapeString_app, append_assoc.
  - unfold AddString. cbn [html_EscapeString]. rewrite append_nil_r. apply element_eta.
  - intros s Hs. cbn [AddString eContent]. by rewrite html_EscapeString_plain.
  - by intros s.
Qed.

(** ** Properties of every element of a tree *)

Section AllElements.

Variable P : Attributes -> string -> Prop.

Lemma all_elements_here e : all_elements P e -> P (eAttributes e) (eContent e).
Proof. by intros [tag attrs children content HP _]. Qed.

Lemma all_elements_newElement tag : P ∅ "" -> all_elements P (newElement tag).
Proof. intros HP. by constructor. Qed.

Lemma applyAt_all_elements (f : Element -> Element) p e :
  (∀ e', all_elements P e' -> all_elements P (f e')) ->
  all_elements P e -> all_elements P (applyAt p f e).
Proof.
  intros Hf. revert e. induction p as [|i p IH]; intros e He; cbn [applyAt]; [by apply Hf|].
  destruct He as [tag attrs children content Ha Hc]. constructor; [done|].
  apply Forall_alter; [done|]. intros x _ Hx. by apply IH.
Qed.

Variable g : Generator.

Hypothesis P_new : P ∅ "".
Hypothesis P_setAttribute : ∀ e key value,
  P (eAttributes e) (eContent e) ->
  P (eAttributes (setAttribute g e key value)) (eContent e).
Hypothesis P_AddString : ∀ a c s, P a c -> P a (c +:+ html_EscapeString s).

Lemma setAttribute_all_elements e key value :
  all_elements P e -> all_elements P (setAttribute g e key value).
Proof.
  intros He. pose proof (P_setAttribute e key value (all_elements_here e He)) as HP.
  rewrite setAttribute_shape.
  destruct He as [tag attrs children content Ha Hc]. by constructor.
Qed.

Lemma perform_all_elements op e :
  all_elements P e -> all_elements P (perform g op e).
Proof.
  intros He. destruct op as [t|t|k v|kvs|s]; cbn [perform].
  - destruct He as [tag attrs children content Ha Hc]. constructor; [done|].
    apply Forall_app. split; [done|].
    constructor; [by apply all_elements_newElement|constructor].
  - destruct He as [tag attrs children content Ha Hc]. constructor; [done|].
    apply Forall_app. split; [done|].
    constructor; [by apply all_elements_newElement|constructor].
  - by apply setAttribute_all_elements.
  - revert e He. unfold WithAttrs. induction kvs as [|kv kvs IH]; intros e He; [done|].
    cbn [foldl]. by apply IH, setAttribute_all_elements.
  - destruct He as [tag attrs children content Ha Hc]. constructor; [|done].
    by apply P_AddString.
Qed.

End AllElements.

Lemma perform_table g g' op e :
  allowedAttributes g' = allowedAttributes g -> perform g' op e = perform g op e.
Proof.
  intros Hg. destruct op; cbn [perform]; try done;
    unfold Attr, WithAttrs, setAttribute; by rewrite Hg.
Qed.

(** A property of single elements that the new element has and that
    [setAttribute] and [AddString] keep holds of every element of every tree
    a program makes. *)
Lemma run_all_elements (P : Attributes -> string -> Prop) g prog :
  P ∅ "" ->
  (∀ e key value, P (eAttributes e) (eContent e) ->
                  P (eAttributes (setAttribute g e key value)) (eContent e)) ->
  (∀ a c s, P a c -> P a (c +:+ html_EscapeString s)) ->
  all_elements P (Root g) ->
  all_elements P (Root (run g prog)).
Proof.
  intros Hnew Hset Hadd.
  assert (H : ∀ g', allowedAttributes g' = allowedAttributes g ->
            all_elements P (Root g') -> all_elements P (Root (run g' prog))).
  { induction prog as [|[p op] prog IH]; intros g' Hg Hroot; [done|].
    unfold run. cbn [foldl]. apply IH; [done|].
    cbn [call withRoot Root fst snd]. apply applyAt_all_elements; [|done].
    intros e' He'. rewrite (perform_table g g' op e' Hg).
    by apply perform_all_elements. }
  by apply H.
Qed.

Lemma prefix_app_r p s t : String.prefix p s = true -> String.prefix p (s +:+ t) = true.
Proof.
  revert s. induction p as [|a p IH]; intros s.
  - intros _. by destruct (s +:+ t).
  - destruct s as [|b s]; simpl; [discriminate|].
    destruct (ascii_dec a b); [apply IH|discriminate].
Qed.

Lemma amp_begins_entity_app s t :
  amp_begins_entity s = true -> amp_begins_entity t = true ->
  amp_begins_entity (s +:+ t) = true.
Proof.
  intros Hs Ht. induction s as [|c s IH]; [done|].
  change (String c s +:+ t) with (String c (s +:+ t)).
  cbn [amp_begins_entity] in *. apply andb_prop in Hs as [Hc Hs].
  rewrite (IH Hs), andb_true_r.
  destruct (Ascii.eqb c "&"); [|done].
  apply existsb_exists in Hc as (x & Hx & Hp). apply existsb_exists.
  exists x. split; [done|]. by apply (prefix_app_r x (String c s) t).
Qed.

Lemma text_safe_app s t : text_safe s = true -> text_safe t = true -> text_safe (s +:+ t) = true.
Proof.
  unfold text_safe, no_markup. intros [H1 H2]%andb_prop [H3 H4]%andb_prop.
  by rewrite all_bytes_app, H1, H3, amp_begins_entity_app.
Qed.

Lemma html_EscapeString_text_safe s : text_safe (html_EscapeString s) = true.
Proof.
  unfold text_safe. by rewrite html_EscapeString_no_markup, html_EscapeString_amp.
Qed.

(** X9.  Whatever calls are made on the tree, the text content of every
    element is escaped text: it has no [<], no [>], no double quote and no
    ['], and an [&] in it is the head of an entity. *)
Theorem text_content_escaped
    (net_url : NetURL) (custom : option (list Attribute)) (prog : list (list nat * Op)) :
  all_elements (fun _ content => text_safe content = true)
    (Root (run (New net_url custom) prog)).
Proof.
  apply run_all_elements.
  - reflexivity.
  - intros e key value He. exact He.
  - intros a c s Hc. apply text_safe_app; [done|apply html_EscapeString_text_safe].
  - constructor; [reflexivity|constructor].
Qed.

(** ** The fields of a string are tokens *)










(** ** The fragments of the class attribute *)



(** The fragments of a value with spaces around and between its names. *)
Example class_value_with_spaces :
  strings_Fields (html_EscapeString "  a   b ") = ["a"; "b"]
  ∧ strings_Fields (html_EscapeString "   ") = [].
Proof. split; vm_compute; reflexivity. Qed.

(** ** Any number of assignments to class and style *)

Lemma class_step g e v :
  allowedAttributes g !! "class" = Some escapeConfig ->
  attr_get (eAttributes (setAttribute g e "class" v)) "class"
  = attr_get (eAttributes e) "class" ++ strings_Fields (html_EscapeString v).
Proof.
  intros Hc. rewrite (setAttribute_allowed _ _ _ _ escapeConfig Hc eq_refl).
  cbn [String.eqb Ascii.eqb Bool.eqb]. unfold attr_get at 1.
  by rewrite lookup_insert_eq.
Qed.

Lemma style_step g e v :
  allowedAttributes g !! "style" = Some escapeConfig ->
  attr_get (eAttributes (setAttribute g e "style" v)) "style"
  = attr_get (eAttributes e) "style" ++ [html_EscapeString v].
Proof.
  intros Hs. rewrite (setAttribute_allowed _ _ _ _ escapeConfig Hs eq_refl).
  cbn [String.eqb Ascii.eqb Bool.eqb]. unfold attr_get at 1.
  by rewrite lookup_insert_eq.
Qed.

Lemma class_style_all g e vs :
  allowedAttributes g !! "class" = Some escapeConfig ->
  allowedAttributes g !! "style" = Some escapeConfig ->
  attr_get (eAttributes (WithAttrs g e (map (KV "class") vs))) "class"
  = attr_get (eAttributes e) "class"
    ++ concat (map (fun v => strings_Fields (html_EscapeString v)) vs)
  ∧ attr_get (eAttributes (WithAttrs g e (map (KV "style") vs))) "style"
    = attr_get (eAttributes e) "style" ++ map html_EscapeString vs.
Proof.
  intros Hc Hs. unfold WithAttrs. revert e.
  induction vs as [|v vs IH]; intros e.
  - cbn [map foldl concat]. by rewrite !app_nil_r.
  - cbn [map foldl concat Key Value].
    destruct (IH (setAttribute g e "class" v)) as [IHc _].
    destruct (IH (setAttribute g e "style" v)) as [_ IHs].
    rewrite IHc, IHs, class_step, style_step by done.
    by rewrite <- !app_assoc.
Qed.

(** X11.  Any number of values given for [class], one after the other,
    leave under [class] the fragments the element held followed by the
    fields of each escaped value, in the order of the calls; given for
    [style], they leave the fragments held followed by the escaped values,
    one fragment each. *)
Theorem class_and_style_accumulate_all
    (net_url : NetURL) (custom : option (list Attribute)) (e : Element) (vs : list string) :
  attr_get (eAttributes (WithAttrs (New net_url custom) e (map (KV "class") vs))) "class"
  = attr_get (eAttributes e) "class"
    ++ concat (map (fun v => strings_Fields (html_EscapeString v)) vs)
  ∧ attr_get (eAttributes (WithAttrs (New net_url custom) e (map (KV "style") vs))) "style"
    = attr_get (eAttributes e) "style" ++ map html_EscapeString vs.
Proof.
  destruct (class_allowed net_url custom) as [Hc Hs]. by apply class_style_all.
Qed.

(** ** A new child is written last *)


Lemma range_empty (ord : list nat -> Attributes -> list (string * list string)) path :
  range_ok ord -> ord path ∅ = [].
Proof.
  intros Hord. apply Permutation_nil_r. by rewrite (Hord path ∅), map_to_list_empty.
Qed.


Lemma generateHtml_newElement ord path tag :
  range_ok ord -> tag ≠ "" ->
  generateHtml ord path (newElement (NormalTag tag)) = "<" +:+ tag +:+ "></" +:+ tag +:+ ">"
  ∧ generateHtml ord path (newElement (VoidTag tag)) = "<" +:+ tag +:+ " />".
Proof.
  intros Hord Hne. rewrite !generateHtml_named by done.
  unfold afterAttributes. cbn [newElement eTag eAttributes eChildren eContent name].
  rewrite (range_empty ord path Hord). cbn [writeAttributes foldr childrenHtml String.eqb].
  split; reflexivity.
Qed.



(** ** Elements with the empty name *)

Lemma perform_tag g op e : eTag (perform g op e) = eTag e.
Proof.
  destruct op as [t|t|k v|kvs|s]; cbn [perform]; try reflexivity.
  - by destruct (setAttribute_frame g e k v).
  - revert e. unfold WithAttrs. induction kvs as [|kv kvs IH]; intros e; [done|].
    cbn [foldl]. rewrite IH. by destruct (setAttribute_frame g e (Key kv) (Value kv)).
Qed.

Lemma applyAt_tag (f : Element -> Element) p e :
  (∀ e', eTag (f e') = eTag e') -> eTag (applyAt p f e) = eTag e.
Proof. intros Hf. destruct p; cbn [applyAt eTag]; [apply Hf|done]. Qed.

Lemma run_root_tag g prog : eTag (Root (run g prog)) = eTag (Root g).
Proof.
  revert g. unfold run. induction prog as [|[p op] prog IH]; intros g; [done|].
  cbn [foldl]. rewrite IH. cbn [call withRoot Root fst snd].
  apply applyAt_tag. intros e'. apply perform_tag.
Qed.

Lemma run_app g prog1 prog2 : run g (prog1 ++ prog2) = run (run g prog1) prog2.
Proof. unfold run. apply foldl_app. Qed.

Lemma empty_name_unchanged g ord path e :
  name (eTag e) = "" ->
  (∀ key value, generateHtml ord path (setAttribute g e key value) = generateHtml ord path e)
  ∧ (∀ s, generateHtml ord path (AddString e s) = generateHtml ord path e).
Proof.
  intros He. split.
  - intros key value.
    destruct (setAttribute_frame g e key value) as (Ht & Hc & _).
    rewrite !generateHtml_root by (by rewrite ?Ht). by rewrite Hc.
  - intros s. by rewrite !generateHtml_root.
Qed.

(** X13.  What is given to the root never reaches the document: after any
    calls, an [Attr], a [WithAttrs] or an [AddString] on the root leaves
    the text of [Generate] as it was. *)
Theorem root_attributes_and_text_not_written
    (net_url : NetURL) (custom : option (list Attribute))
    (ord : list nat -> Attributes -> list (string * list string))
    (prog : list (list nat * Op)) :
  (∀ key value,
     Generate ord (run (New net_url custom) (prog ++ [([], OpAttr key value)]))
     = Generate ord (run (New net_url custom) prog))
  ∧ (∀ attrs,
       Generate ord (run (New net_url custom) (prog ++ [([], OpWithAttrs attrs)]))
       = Generate ord (run (New net_url custom) prog))
  ∧ (∀ content,
       Generate ord (run (New net_url custom) (prog ++ [([], OpAddString content)]))
       = Generate ord (run (New net_url custom) prog)).
Proof.
  pose proof (run_root_tag (New net_url custom) prog) as Htag.
  remember (run (New net_url custom) prog) as g eqn:Hg.
  assert (Hroot : name (eTag (Root g)) = "") by by rewrite Htag.
  assert (Hone : ∀ op, run (New net_url custom) (prog ++ [([], op)])
                       = withRoot g (perform g op (Root g))).
  { intros op. by rewrite run_app, <- Hg. }
  unfold Generate. split; [|split].
  - intros key value. rewrite Hone. cbn [withRoot Root perform Attr].
    by apply empty_name_unchanged.
  - intros attrs. rewrite Hone. cbn [withRoot Root perform]. unfold WithAttrs.
    generalize (Root g) Hroot. induction attrs as [|kv attrs IH]; intros e He; [done|].
    cbn [foldl]. rewrite IH.
    + by apply empty_name_unchanged.
    + by destruct (setAttribute_frame g e (Key kv) (Value kv)) as (-> & _).
  - intros content. rewrite Hone. cbn [withRoot Root perform].
    by apply empty_name_unchanged.
Qed.

(** ** Attribute names are written as given *)



(** ** The order of the walk over the attributes *)

Lemma range_few (ord1 ord2 : list nat -> Attributes -> list (string * list string))
    path (m : Attributes) :
  range_ok ord1 -> range_ok ord2 -> few_attrs m -> ord1 path m = ord2 path m.
Proof.
  intros H1 H2 Hm. unfold few_attrs in Hm.
  pose proof (length_map_to_list m) as Hlen.
  destruct (map_to_list m) as [|kv [|kv' l]] eqn:Hl; cbn [length] in Hlen.
  - assert (E1 : ord1 path m = []) by (apply Permutation_nil_r; by rewrite (H1 path m), Hl).
    assert (E2 : ord2 path m = []) by (apply Permutation_nil_r; by rewrite (H2 path m), Hl).
    by rewrite E1, E2.
  - assert (E1 : ord1 path m = [kv])
      by (apply Permutation_singleton_r; by rewrite (H1 path m), Hl).
    assert (E2 : ord2 path m = [kv])
      by (apply Permutation_singleton_r; by rewrite (H2 path m), Hl).
    by rewrite E1, E2.
  - lia.
Qed.

Lemma generateHtml_few (ord1 ord2 : list nat -> Attributes -> list (string * list string)) :
  range_ok ord1 -> range_ok ord2 ->
  ∀ e path, all_elements (fun a _ => few_attrs a) e ->
            generateHtml ord1 path e = generateHtml ord2 path e.
Proof.
  intros H1 H2. fix IH 1. intros [tag attrs children content] path He.
  inversion He as [t a cs ct Ha Hc]; subst.
  assert (Hkids : ∀ i, childrenHtml (generateHtml ord1) path i children
                       = childrenHtml (generateHtml ord2) path i children).
  { clear He Ha. revert children Hc. fix IHc 1. intros [|c cs] Hc i; [reflexivity|].
    cbn [childrenHtml]. inversion Hc as [|c' cs' Hhd Htl]; subst.
    by rewrite (IH c (path ++ [i]) Hhd), (IHc cs Htl (S i)). }
  cbn [generateHtml]. rewrite !generateHtml_children, Hkids.
  by rewrite (range_few ord1 ord2 path attrs H1 H2 Ha).
Qed.

(** X15.  The text of a document whose elements have at most one attribute
    each does not depend on the order in which Go walks the attribute
    maps: two runs of [Generate] on the same tree give the same text. *)
Theorem document_independent_of_map_order
    (ord1 ord2 : list nat -> Attributes -> list (string * list string)) (g : Generator) :
  range_ok ord1 -> range_ok ord2 ->
  all_elements (fun a _ => few_attrs a) (Root g) ->
  Generate ord1 g = Generate ord2 g.
Proof. intros H1 H2 Hg. unfold Generate. by apply generateHtml_few. Qed.

Lemma rangeReversed_ok : range_ok rangeReversed.
Proof. intros path m. unfold rangeReversed. by rewrite reverse_Permutation. Qed.

Lemma document_independent_of_map_order_witness :
  Generate rangeMapOrder
    (run (New sample_url None) [([], OpAdd "div"); ([0], OpAttr "class" "a")])
  = Generate rangeReversed
      (run (New sample_url None) [([], OpAdd "div"); ([0], OpAttr "class" "a")]).
Proof.
  apply (document_independent_of_map_order rangeMapOrder rangeReversed _
           rangeMapOrder_ok rangeReversed_ok).
  vm_compute. repeat constructor.
Defined.

(** With two attributes on one element the two walks give two texts. *)
Example two_attributes_two_documents :
  let g := run (New sample_url None)
             [([], OpAdd "p"); ([0], OpAttr "id" "x"); ([0], OpAttr "title" "y")] in
  Generate rangeMapOrder g
  = "<p id=" +:+ dq +:+ "x" +:+ dq +:+ " title=" +:+ dq +:+ "y" +:+ dq +:+ "></p>"
  ∧ Generate rangeReversed g
    = "<p title=" +:+ dq +:+ "y" +:+ dq +:+ " id=" +:+ dq +:+ "x" +:+ dq +:+ "></p>".
Proof. split; vm_compute; reflexivity. Qed.

(** ** The generated tag methods *)

Lemma htmlTags_named : Forall (fun tag => tag ≠ "") htmlTags.
Proof. unfold htmlTags. repeat (constructor; [discriminate|]). constructor. Qed.

Lemma voidElements_listed tag : isVoidElement tag = true -> tag ∈ htmlTags.
Proof.
  unfold isVoidElement, voidElements.
  match goal with |- context [list_to_map ?l] =>
    assert (Hall : Forall (fun kv : string * bool => kv.1 ∈ htmlTags) l)
      by (refine (bool_decide_unpack _ _); vm_compute; exact I);
    destruct (list_to_map (M := gmap string bool) l !! tag) as [b|] eqn:Hl
  end; [|done].
  intros _. apply elem_of_list_to_map_2 in Hl.
  rewrite Forall_forall in Hall. apply (Hall _ Hl).
Qed.

(** X16.  Every method the generator writes, called on the root of a new
    generator, gives a document of that one element, under the name the
    method was written for: [<tag />] for the fourteen void names, an open
    and a closing tag for the others.  Every void name has its method. *)
Theorem tag_method_document
    (net_url : NetURL) (custom : option (list Attribute))
    (ord : list nat -> Attributes -> list (string * list string)) (tag : string) :
  range_ok ord ->
  tag ∈ htmlTags ->
  Generate ord (withRoot (New net_url custom)
                  (tagMethod tag (Root (New net_url custom))))
  = (if isVoidElement tag then "<" +:+ tag +:+ " />"
     else "<" +:+ tag +:+ "></" +:+ tag +:+ ">")
  ∧ (∀ void, isVoidElement void = true -> void ∈ htmlTags).
Proof.
  intros Hord Hin. split; [|apply voidElements_listed].
  assert (Hne : tag ≠ "").
  { pose proof htmlTags_named as Hall. rewrite Forall_forall in Hall. by apply Hall. }
  unfold Generate, tagMethod. cbn [withRoot Root New].
  destruct (generateHtml_newElement ord [0] tag Hord Hne) as [Hn Hv].
  destruct (isVoidElement tag);
    rewrite generateHtml_root by reflexivity;
    cbn [AddVoid Add eChildren newRoot app childrenHtml];
    [rewrite Hv|rewrite Hn]; apply append_nil_r.
Qed.

Lemma tag_method_document_witness :
  Generate rangeMapOrder (withRoot (New sample_url None)
                            (tagMethod "br" (Root (New sample_url None))))
  = (if isVoidElement "br" then "<" +:+ "br" +:+ " />"
     else "<" +:+ "br" +:+ "></" +:+ "br" +:+ ">")
  ∧ (∀ void, isVoidElement void = true -> void ∈ htmlTags).
Proof.
  apply (tag_method_document sample_url None rangeMapOrder "br" rangeMapOrder_ok).
  refine (bool_decide_unpack _ _). vm_compute. exact I.
Defined.

(** X17.  The names of the generated methods are pairwise distinct, and
    none is the name of a field of [Element] or of a method the library
    file declares on it. *)
Theorem method_names_distinct :
  NoDup (map methodName htmlTags)
  ∧ Forall (fun tag => methodName tag ∉ elementMembers) htmlTags.
Proof.
  split.
  - refine (bool_decide_unpack _ _). vm_compute. exact I.
  - refine (bool_decide_unpack _ _). vm_compute. exact I.
Qed.

(** ** The earlier revision of the library *)

Lemma Rev1_New_url net_url custom k :
  k = "href" ∨ k = "src" ->
  Rev1.allowedAttributes (Rev1.New net_url custom) !! k = Some (urlConfig net_url).
Proof.
  intros [->| ->]; unfold Rev1.New; cbn [Rev1.allowedAttributes].
  - rewrite lookup_insert_ne by discriminate. apply lookup_insert_eq.
  - apply lookup_insert_eq.
Qed.

Lemma Rev1_setAttribute_allowed g e key c value :
  Rev1.allowedAttributes g !! key = Some c ->
  allowed c = true ->
  Rev1.setAttribute g e key value
  = Rev1.setAttributes e (<[key := sanitized c value]> (Rev1.eAttributes e)).
Proof.
  intros Hk Ha. unfold Rev1.setAttribute. rewrite Hk. cbn [mbind option_bind]. rewrite Ha.
  unfold sanitized. by destruct (sanitizeFunc c).
Qed.

(** X18.  In the earlier revision a value given for [href] or [src] goes
    through the URL sanitizer whatever list [New] was given, nil and a
    list naming [href] or [src] included. *)
Theorem earlier_revision_validates_every_url
    (net_url : NetURL) (custom : option (list Attribute)) (e : Rev1.Element)
    (value : string) :
  Rev1.eAttributes (Rev1.Attr (Rev1.New net_url custom) e "href" value)
  = <["href" := urlSanitizeFunc net_url value]> (Rev1.eAttributes e)
  ∧ Rev1.eAttributes (Rev1.Attr (Rev1.New net_url custom) e "src" value)
    = <["src" := urlSanitizeFunc net_url value]> (Rev1.eAttributes e).
Proof.
  unfold Rev1.Attr.
  split;
    (erewrite Rev1_setAttribute_allowed;
       [|apply Rev1_New_url; auto|reflexivity]); reflexivity.
Qed.

(** X19.  In the earlier revision the second of two assignments to a key
    replaces the first, under every key, [class] and [style] included, and
    whatever the policy table holds. *)
Theorem earlier_revision_last_write_wins
    (g : Rev1.Generator) (e : Rev1.Element) (key v1 v2 : string) :
  Rev1.setAttribute g (Rev1.setAttribute g e key v1) key v2
  = Rev1.setAttribute g e key v2.
Proof.
  unfold Rev1.setAttribute.
  destruct (Rev1.allowedAttributes g !! key) as [[[] [f|]]|]; cbn [allowed mbind option_bind sanitizeFunc];
    try (destruct (strings_HasPrefix key "data-"));
    unfold Rev1.setAttributes; cbn [Rev1.eAttributes Rev1.eTag Rev1.eChildren Rev1.eContent];
    by rewrite insert_insert_eq.
Qed.

Lemma Rev1_table net_url custom :
  table_sanitizes net_url (Rev1.allowedAttributes (Rev1.New net_url custom)).
Proof.
  unfold Rev1.New, table_sanitizes. cbn [Rev1.allowedAttributes].
  assert (Hfold : ∀ (A : Type) (f : A -> string) (l : list A) (m : gmap string attributeConfig),
    map_Forall (fun _ c => c = escapeConfig ∨ c = urlConfig net_url) m ->
    map_Forall (fun _ c => c = escapeConfig ∨ c = urlConfig net_url)
      (foldl (fun m a => <[f a := escapeConfig]> m) m l)).
  { intros A f l. induction l as [|a l IH]; intros m Hm; [done|].
    cbn [foldl]. apply IH. apply map_Forall_insert_2; auto. }
  do 2 (apply map_Forall_insert_2; [by right|]).
  assert (H1 : map_Forall (fun _ c => c = escapeConfig ∨ c = urlConfig net_url)
                 (foldl (fun m attr => <[attr := escapeConfig]> m)
                    (∅ : gmap string attributeConfig) Rev1.defaultAllowed)).
  { apply (Hfold string (fun a => a)). apply map_Forall_empty. }
  destruct (not_nil custom); [|done].
  by apply (Hfold Attribute Name).
Qed.

Lemma Rev1_setAttribute_safe net_url g e key value :
  table_sanitizes net_url (Rev1.allowedAttributes g) ->
  Rev1.tree_safe e -> Rev1.tree_safe (Rev1.setAttribute g e key value).
Proof.
  intros Hg He. destruct He as [t a cs ct Ha Hc].
  assert (Hins : ∀ k v, quote_safe v = true ->
            Rev1.tree_safe (Rev1.setAttributes (Rev1.mkElement t a cs ct) (<[k := v]> a))).
  { intros k v Hv. constructor; [|done]. by apply map_Forall_insert_2. }
  unfold Rev1.setAttribute. cbn [Rev1.eAttributes].
  destruct (Rev1.allowedAttributes g !! key) as [c|] eqn:Hk.
  - destruct (Hg key c Hk) as [-> | ->]; cbn [allowed escapeConfig urlConfig mbind option_bind sanitizeFunc];
      apply Hins; [apply html_EscapeString_quote_safe|apply urlSanitizeFunc_quote_safe].
  - cbn [mbind option_bind].
    destruct (strings_HasPrefix key "data-"); apply Hins; apply html_EscapeString_quote_safe.
Qed.

Lemma Rev1_perform_safe net_url g op e :
  table_sanitizes net_url (Rev1.allowedAttributes g) ->
  Rev1.tree_safe e -> Rev1.tree_safe (Rev1.perform g op e).
Proof.
  intros Hg He. destruct op as [t|t|k v|kvs|s]; cbn [Rev1.perform].
  - destruct He as [t' a cs ct Ha Hc]. constructor; [done|].
    apply Forall_app; split; [done|]. repeat constructor. apply map_Forall_empty.
  - destruct He as [t' a cs ct Ha Hc]. constructor; [done|].
    apply Forall_app; split; [done|]. repeat constructor. apply map_Forall_empty.
  - by apply (Rev1_setAttribute_safe net_url).
  - revert e He. unfold Rev1.WithAttrs. induction kvs as [|kv kvs IH]; intros e He; [done|].
    cbn [foldl]. apply IH. by apply (Rev1_setAttribute_safe net_url).
  - destruct He as [t' a cs ct Ha Hc]. by constructor.
Qed.

Lemma Rev1_applyAt_safe (f : Rev1.Element -> Rev1.Element) p e :
  (∀ e', Rev1.tree_safe e' -> Rev1.tree_safe (f e')) ->
  Rev1.tree_safe e -> Rev1.tree_safe (Rev1.applyAt p f e).
Proof.
  intros Hf. revert e. induction p as [|i p IH]; intros e He; cbn [Rev1.applyAt]; [by apply Hf|].
  destruct He as [tag attrs children content Ha Hc]. constructor; [done|].
  apply Forall_alter; [done|]. intros x _ Hx. by apply IH.
Qed.

(** X20.  In the earlier revision, too, whatever list [New] is given and
    whatever calls are made on the tree, no value stored in an attribute
    map has a double quote or a [<]. *)
Theorem earlier_revision_stored_values_safe
    (net_url : NetURL) (custom : option (list Attribute))
    (prog : list (list nat * Rev1.Op)) :
  Rev1.tree_safe (Rev1.Root (Rev1.run (Rev1.New net_url custom) prog)).
Proof.
  assert (H : ∀ g, table_sanitizes net_url (Rev1.allowedAttributes g) ->
            Rev1.tree_safe (Rev1.Root g) -> Rev1.tree_safe (Rev1.Root (Rev1.run g prog))).
  { unfold Rev1.run. induction prog as [|[p op] prog IH]; intros g Hg Hr; [done|].
    cbn [foldl]. apply IH; unfold Rev1.call; cbn [Rev1.allowedAttributes Rev1.Root fst snd].
    - done.
    - apply Rev1_applyAt_safe; [|done]. intros e'. by apply (Rev1_perform_safe net_url). }
  apply H; [apply Rev1_table|].
  unfold Rev1.New. cbn [Rev1.Root]. constructor; [apply map_Forall_empty|constructor].
Qed.
